(** * Land Explorer: the simulation core of [javascript/game.js]

    A shallow embedding of the game's geometry test, puzzle state machines,
    movement resolver, region transition, per-frame update and save/load
    restore, followed by the properties the specification states about them.

    Numbers.  JavaScript numbers are modelled as exact rationals ([Q]): the
    comparisons, additions and multiplications of the source are carried out
    without rounding, and [NaN] has no representative.  The one place where
    the source computes with [NaN] (an overlap test against an object that
    has no [w] and [h]) is written out separately, see [rectOverlapNoSize].
    Because a rational has many representations, results of arithmetic are
    compared with [==] ([Qeq]); values that are copied or assigned from
    constants are compared with [=]. *)

From Stdlib Require Import QArith Qround ZArith Bool Lia Lqa.
From stdpp Require Import base option list strings gmap pretty.

Open Scope Q_scope.
Set Warnings "-register-all".

(** ** Numbers and comparisons *)

(** [a <= b], [a >= b], [a < b], [a > b], [a !== b] on numbers. *)
Definition leq (a b : Q) : bool := Qle_bool a b.
Definition geq (a b : Q) : bool := Qle_bool b a.
Definition ltq (a b : Q) : bool := negb (Qle_bool b a).
Definition gtq (a b : Q) : bool := negb (Qle_bool a b).
Definition neq (a b : Q) : bool := negb (Qeq_bool a b).

Definition TILE : Q := 32.
Definition COLS : Q := 30.
Definition ROWS : Q := 18.

(** [Math.max], [Math.min] *)
Definition Math_max (a b : Q) : Q := if leq a b then b else a.
Definition Math_min (a b : Q) : Q := if leq a b then a else b.

(** [function clamp(v, a, b){ return Math.max(a, Math.min(b, v)); }] *)
Definition clamp (v a b : Q) : Q := Math_max a (Math_min b v).

(** [Math.round]: the nearest integer, halves rounded up. *)
Definition round (v : Q) : Q := inject_Z (Qfloor (v + (1 # 2))).

(** ** Geometry *)

Record Rect := mkRect { rx : Q; ry : Q; rw : Q; rh : Q }.

(** A descriptor [{x, y}] of a plate, pad, teleporter: a position only. *)
Record Pos := mkPos { px : Q; py : Q }.

(** [{ x: p.x, y: p.y, w: TILE, h: TILE }] *)
Definition tileRect (p : Pos) : Rect := mkRect (px p) (py p) TILE TILE.

(** [function rectOverlap(a, b)] *)
Definition rectOverlap (a b : Rect) : bool :=
  negb (leq (rx a + rw a) (rx b) || geq (rx a) (rx b + rw b)
        || leq (ry a + rh a) (ry b) || geq (ry a) (ry b + rh b)).

(** [rectOverlap(a, b)] when [b] is a bare descriptor [{x, y}]: [b.w] and
    [b.h] are [undefined], so [b.x + b.w] and [b.y + b.h] are [NaN] and the
    two comparisons against them are false. *)
Definition rectOverlapNoSize (a : Rect) (b : Pos) : bool :=
  negb (leq (rx a + rw a) (px b) || false
        || leq (ry a + rh a) (py b) || false).

(** ** JavaScript values, as [JSON.parse] and [getState] produce them *)

Inductive JsVal :=
| JUndefined
| JNull
| JBool (b : bool)
| JNum (q : Q)
| JStr (s : string)
| JArr (l : list JsVal)
| JObj (fields : list (string * JsVal)).

(** [!!v] *)
Definition truthy (v : JsVal) : bool :=
  match v with
  | JUndefined | JNull => false
  | JBool b => b
  | JNum q => negb (Qeq_bool q 0)
  | JStr s => negb (String.eqb s "")
  | JArr _ | JObj _ => true
  end.

(** Outcome of a piece of code that may throw.  [Untyped] marks a run that
    would store a value of the wrong JavaScript type into a field that this
    development types as a number or a boolean (a string as a crate
    coordinate, say); such runs are outside the model. *)
Inductive Res (A : Type) :=
| Ok (a : A)
| Throw
| Untyped.
Arguments Ok {A} a.
Arguments Throw {A}.
Arguments Untyped {A}.

Definition bind {A B} (m : Res A) (k : A -> Res B) : Res B :=
  match m with
  | Ok a => k a
  | Throw => Throw
  | Untyped => Untyped
  end.

Notation "'let!' x ':=' m 'in' k" := (bind m (fun x => k))
  (at level 10, x pattern, m at level 100, k at level 200).

Fixpoint assoc (k : string) (fs : list (string * JsVal)) : JsVal :=
  match fs with
  | [] => JUndefined
  | (k', v) :: fs' => if String.eqb k k' then v else assoc k fs'
  end.

(** [v.k] for one of the property names the source reads ([solved],
    [index], [x], ...): a [TypeError] on [null] and [undefined], the field
    of an object, [undefined] on everything else. *)
Definition getProp (v : JsVal) (k : string) : Res JsVal :=
  match v with
  | JUndefined | JNull => Throw
  | JObj fs => Ok (assoc k fs)
  | _ => Ok JUndefined
  end.

(** The number an integer-valued field holds. *)
Definition asInt (v : JsVal) : Res Z :=
  match v with
  | JNum q => if Qeq_bool q (inject_Z (Qfloor q)) then Ok (Qfloor q) else Untyped
  | _ => Untyped
  end.

Definition asNum (v : JsVal) : Res Q :=
  match v with
  | JNum q => Ok q
  | _ => Untyped
  end.

Definition asBool (v : JsVal) : Res bool :=
  match v with
  | JBool b => Ok b
  | _ => Untyped
  end.

(** ** Observable effects requested by the simulation *)

Inductive Event :=
| SfxPuzzleClear
| SfxInteract
| SfxReset
| SfxSeed
| SfxWin
| SaveGame
| SubmitScore
| FadeToRegion (target : nat).

(** ** Puzzles

    The four factories return objects with [solved], [update], [blocksExit],
    [getState], [setState].  An object's own fields and the variables its
    methods close over make up the constructor's arguments. *)

(** An entry of [platesData]: [{ ...p, isPressed }]. *)
Record Plate := mkPlate { plate_pos : Pos; isPressed : bool }.

(** An entry of [teleporterData]: [{ ...t, active }]. *)
Record Teleporter := mkTeleporter { tele_pos : Pos; active : bool }.

(** An entry of the global [puzzlePadInteraction]. *)
Record Interaction := mkInteraction { enteredCorrectPad : bool; lastHitIndex : Z }.

(** The entry [createStrictSequencePuzzle] installs under a fresh key. *)
Definition freshInteraction : Interaction := mkInteraction false (-1).

Inductive Puzzle :=
| DynamicPlatePuzzle (solved : bool) (platesData : list Plate)
| StrictSequencePuzzle (solved : bool) (index : Z) (pads : list Pos) (padKey : string)
| CratePuzzle (solved : bool)
| TeleporterPuzzle (solved : bool) (teleporterData : list Teleporter).

Definition solved (p : Puzzle) : bool :=
  match p with
  | DynamicPlatePuzzle s _ | StrictSequencePuzzle s _ _ _
  | CratePuzzle s | TeleporterPuzzle s _ => s
  end.

(** [blocksExit() { return !this.solved; }], the same in the four factories. *)
Definition blocksExit (p : Puzzle) : bool := negb (solved p).

(** [puzzlePadInteraction[padKey]].  Every puzzle object comes from the
    factory, which installs [freshInteraction] under its key when the key is
    absent; reading an absent key as [freshInteraction] is therefore what
    the methods of any puzzle object observe. *)
Definition padInteraction (store : gmap string Interaction) (key : string) : Interaction :=
  default freshInteraction (store !! key).

(** [pads.findIndex(pred)]: the first index, [-1] when there is none. *)
Fixpoint findIndex {A} (pred : A -> bool) (l : list A) : Z :=
  match l with
  | [] => -1
  | a :: l' => if pred a then 0%Z
               else let i := findIndex pred l' in
                    if (i =? -1)%Z then (-1)%Z else (i + 1)%Z
  end.

(** [l[i]] for a number [i]: [undefined] ([None]) out of range. *)
Definition at_index {A} (l : list A) (i : Z) : option A :=
  if (i <? 0)%Z then None else l !! Z.to_nat i.

(** [createDynamicPlatePuzzle(...).checkPressed(p)] *)
Definition checkPressed (player : Rect) (crates : list Rect) (p : Pos) : bool :=
  if rectOverlap player (tileRect p) then true
  else existsb (fun c => rectOverlap c (tileRect p)) crates.

(** [createDynamicPlatePuzzle(...).update()] *)
Definition plate_update (player : Rect) (crates : list Rect)
    (sv : bool) (platesData : list Plate) : Puzzle * list Event :=
  if sv then (DynamicPlatePuzzle sv platesData, [])
  else
    let platesData' :=
      map (fun p => mkPlate (plate_pos p) (checkPressed player crates (plate_pos p)))
          platesData in
    let allPressed := forallb isPressed platesData' in
    if allPressed then (DynamicPlatePuzzle true platesData', [SfxPuzzleClear])
    else (DynamicPlatePuzzle sv platesData', []).

(** [pads.findIndex(p => rectOverlap(playerRect, { x: p.x, y: p.y, w: TILE, h: TILE }))]
    for [playerRect = { x: player.x, y: player.y, w: TILE, h: TILE }]. *)
Definition touchedPad (x y : Q) (pads : list Pos) : Z :=
  findIndex (fun p => rectOverlap (mkRect x y TILE TILE) (tileRect p)) pads.

(** [createStrictSequencePuzzle(...).update()], on the player position
    [(x, y)]; returns the puzzle, [puzzlePadInteraction] and the sounds. *)
Definition sequence_update (x y : Q) (sv : bool) (index : Z) (pads : list Pos)
    (padKey : string) (store : gmap string Interaction)
    : Puzzle * gmap string Interaction * list Event :=
  if sv then (StrictSequencePuzzle sv index pads padKey, store, [])
  else
    let interactionState := padInteraction store padKey in
    let playerRect := mkRect x y TILE TILE in
    let touchedPadIndex := touchedPad x y pads in
    let isTouchingAPad := negb (touchedPadIndex =? -1)%Z in
    let isTouchingCurrentTarget := (touchedPadIndex =? index)%Z in
    if isTouchingAPad && negb isTouchingCurrentTarget
       && ((0 <? index)%Z || negb (touchedPadIndex =? -1)%Z)
    then (StrictSequencePuzzle sv 0 pads padKey,
          <[padKey := mkInteraction false (-1)]> store, [SfxReset])
    else if isTouchingCurrentTarget
    then (StrictSequencePuzzle sv index pads padKey,
          <[padKey := mkInteraction true index]> store, [])
    else
      let padToExit := at_index pads (lastHitIndex interactionState) in
      let isStillTouchingLastHitPad :=
        match padToExit with
        | None => false
        | Some pad => rectOverlapNoSize playerRect pad
        end in
      if enteredCorrectPad interactionState && negb isStillTouchingLastHitPad
      then
        let index' := (index + 1)%Z in
        if (Z.of_nat (length pads) <=? index')%Z
        then (StrictSequencePuzzle true index' pads padKey,
              <[padKey := mkInteraction false (-1)]> store, [SfxInteract; SfxPuzzleClear])
        else (StrictSequencePuzzle sv index' pads padKey,
              <[padKey := mkInteraction false (-1)]> store, [SfxInteract])
      else (StrictSequencePuzzle sv index pads padKey, store, []).

(** [createCratePuzzle(region).isSolved()] *)
Definition isSolved (crates targets : list Rect) : bool :=
  if negb (length crates =? length targets)%nat then false
  else forallb (fun c => existsb (fun t => rectOverlap c t) targets) crates.

(** [createCratePuzzle(region).update()] *)
Definition crate_update (crates targets : list Rect) (sv : bool) : Puzzle * list Event :=
  if sv then (CratePuzzle sv, [])
  else
    let nowSolved := isSolved crates targets in
    if nowSolved then (CratePuzzle true, [SfxPuzzleClear])
    else (CratePuzzle sv, []).

(** [createTeleporterPuzzle(...).update(player, interactionKey)] *)
Definition teleporter_update (player : Rect) (interactionKey : bool)
    (sv : bool) (teleporterData : list Teleporter) : Puzzle * list Event :=
  if sv then (TeleporterPuzzle sv teleporterData, [])
  else
    let touched t := rectOverlap player (tileRect (tele_pos t)) in
    let teleporterData' :=
      if interactionKey
      then map (fun t => if touched t then mkTeleporter (tele_pos t) (negb (active t)) else t)
               teleporterData
      else teleporterData in
    let interacted := interactionKey && existsb touched teleporterData in
    let ev := if interacted then [SfxInteract] else [] in
    if forallb active teleporterData'
    then (TeleporterPuzzle true teleporterData', ev ++ [SfxPuzzleClear])
    else (TeleporterPuzzle sv teleporterData', ev).

(** [getState()] of the four factories; the sequence puzzle reads its entry
    of [puzzlePadInteraction]. *)
Definition getState (store : gmap string Interaction) (p : Puzzle) : JsVal :=
  match p with
  | DynamicPlatePuzzle sv _ => JObj [("solved", JBool sv)]
  | StrictSequencePuzzle sv index _ padKey =>
      JObj [("solved", JBool sv);
            ("index", JNum (inject_Z index));
            ("enteredCorrectPad", JBool (enteredCorrectPad (padInteraction store padKey)));
            ("lastHitIndex", JNum (inject_Z (lastHitIndex (padInteraction store padKey))))]
  | CratePuzzle sv => JObj [("solved", JBool sv)]
  | TeleporterPuzzle sv teleporterData =>
      JObj [("solved", JBool sv);
            ("activeStates", JArr (map (fun t => JBool (active t)) teleporterData))]
  end.

(** [state.activeStates.forEach((a, i) => { if (this.teleporterData[i])
    this.teleporterData[i].active = !!a; })] *)
Fixpoint restoreActive (activeStates : list JsVal) (teleporterData : list Teleporter)
    : list Teleporter :=
  match activeStates, teleporterData with
  | a :: activeStates', t :: teleporterData' =>
      mkTeleporter (tele_pos t) (truthy a) :: restoreActive activeStates' teleporterData'
  | _, _ => teleporterData
  end.

(** [state.f !== undefined ? state.f : d] stored into an integer field. *)
Definition intOrDefault (v : JsVal) (d : Z) : Res Z :=
  match v with
  | JUndefined => Ok d
  | _ => asInt v
  end.

(** [setState(state)] of the four factories. *)
Definition setState (state : JsVal) (store : gmap string Interaction) (p : Puzzle)
    : Res (Puzzle * gmap string Interaction) :=
  match p with
  | DynamicPlatePuzzle _ platesData =>
      let! s := getProp state "solved" in
      Ok (DynamicPlatePuzzle (truthy s) platesData, store)
  | StrictSequencePuzzle _ _ pads padKey =>
      let! s := getProp state "solved" in
      let! i := getProp state "index" in
      let! index := intOrDefault i 0 in
      let! e := getProp state "enteredCorrectPad" in
      let! l := getProp state "lastHitIndex" in
      let! lastHit := intOrDefault l (-1) in
      Ok (StrictSequencePuzzle (truthy s) index pads padKey,
          <[padKey := mkInteraction (truthy e) lastHit]> store)
  | CratePuzzle _ =>
      let! s := getProp state "solved" in
      Ok (CratePuzzle (truthy s), store)
  | TeleporterPuzzle _ teleporterData =>
      let! s := getProp state "solved" in
      let! sv := asBool s in
      let! a := getProp state "activeStates" in
      match a with
      | JArr activeStates => Ok (TeleporterPuzzle sv (restoreActive activeStates teleporterData), store)
      | _ => Ok (TeleporterPuzzle sv teleporterData, store)
      end
  end.

(** ** Regions and the session state *)

(** A seed [{ x, y, collected, pulse }]. *)
Record Seed := mkSeed { seed_pos : Pos; collected : bool; pulse : Q }.

(** A gate [{ x, y, w, h, closed }]. *)
Record Gate := mkGate { gate_rect : Rect; closed : bool }.

(** An entry of [regions]; a crate is its rectangle (its [color] is only
    drawn). *)
Record Region := mkRegion {
  cols : Q;
  rows : Q;
  seeds : list Seed;
  obstacles : list Rect;
  crates : list Rect;
  targets : list Rect;
  puzzle : option Puzzle;
  gate : option Gate
}.

(** [player]: the position; [w], [h] and [speed] are never assigned. *)
Record Player := mkPlayer { player_x : Q; player_y : Q }.
Definition player_w : Q := 24.
Definition player_h : Q := 24.
Definition player_speed : Q := 3.

(** The object [player] where the source passes it as a rectangle. *)
Definition playerRect (p : Player) : Rect :=
  mkRect (player_x p) (player_y p) player_w player_h.

(** The mutable globals of the script that the update reads, with the
    requested effects in the order they were requested (most recent last).
    The clock of the animation, the audio elements and the page elements are
    left out: they are written and drawn, never read by the update. *)
Record Game := mkGame {
  currentRegion : nat;
  player : Player;
  gameTime : Q;
  flashTimer : Q;
  paused : bool;
  interactionPending : bool;
  regions : list Region;
  puzzlePadInteraction : gmap string Interaction;
  events : list Event
}.

(** [regionEdges]: up, right, down, left. *)
Definition regionEdges : list (option nat * option nat * option nat * option nat) :=
  [ (None, Some 1, None, None);
    (None, Some 2, None, Some 0);
    (None, Some 3, None, Some 1);
    (None, Some 4, None, Some 2);
    (None, None, None, Some 3) ]%nat.

Definition edge_up (e : option nat * option nat * option nat * option nat) := e.1.1.1.
Definition edge_right (e : option nat * option nat * option nat * option nat) := e.1.1.2.
Definition edge_down (e : option nat * option nat * option nat * option nat) := e.1.2.
Definition edge_left (e : option nat * option nat * option nat * option nat) := e.2.

(** [monument] *)
Definition monument : Rect :=
  mkRect (inject_Z (Qfloor (COLS / 2)) * TILE) (inject_Z (Qfloor (ROWS / 2)) * TILE) TILE TILE.

(** The [regions] array literal: five empty regions of [COLS] x [ROWS]. *)
Definition emptyRegion : Region := mkRegion COLS ROWS [] [] [] [] None None.
Definition regions0 : list Region := replicate 5 emptyRegion.

Definition at_tile (c r : Q) : Pos := mkPos (c * TILE) (r * TILE).
Definition newSeed (c r : Q) : Seed := mkSeed (at_tile c r) false 0.
Definition block (c r w h : Q) : Rect := mkRect (c * TILE) (r * TILE) w h.

(** The key [`strict_sequence_${id}`] for the [id] that [generateContent]
    passes, which is none. *)
Definition sequenceKey : string := "strict_sequence_undefined".

(** [createStrictSequencePuzzle(pads, id)] *)
Definition createStrictSequencePuzzle (pads : list Pos) (padKey : string)
    (store : gmap string Interaction) : Puzzle * gmap string Interaction :=
  (StrictSequencePuzzle false 0 pads padKey,
   match store !! padKey with
   | None => <[padKey := freshInteraction]> store
   | Some _ => store
   end).

(** The pads [generateContent] gives the sequence puzzle of region 1. *)
Definition sequencePads : list Pos := [at_tile 25 8; at_tile 26 8; at_tile 27 8].

(** [createDynamicPlatePuzzle(region, plates)], [createTeleporterPuzzle(teleporters)] *)
Definition createDynamicPlatePuzzle (plates : list Pos) : Puzzle :=
  DynamicPlatePuzzle false (map (fun p => mkPlate p false) plates).
Definition createTeleporterPuzzle (teleporters : list Pos) : Puzzle :=
  TeleporterPuzzle false (map (fun t => mkTeleporter t false) teleporters).

(** The content [generateContent] gives region [i]: seeds, obstacles,
    crates, targets, puzzle. *)
Definition regionContent (i : nat) (r : Region) (store : gmap string Interaction)
    : Region * gmap string Interaction :=
  match i with
  | 0%nat =>
      (mkRegion (cols r) (rows r)
         [newSeed 10 6]
         [block 12 7 TILE TILE]
         [block 6 6 TILE TILE]
         []
         (Some (createDynamicPlatePuzzle [at_tile 4 5; at_tile 8 5]))
         (gate r), store)
  | 1%nat =>
      let '(p, store') :=
        createStrictSequencePuzzle sequencePads sequenceKey store in
      (mkRegion (cols r) (rows r)
         [newSeed 24 9]
         [block 22 5 (TILE * 2) TILE; block 27 12 (TILE * 2) TILE]
         []
         []
         (Some p)
         (gate r), store')
  | 2%nat =>
      (mkRegion (cols r) (rows r)
         [newSeed 8 4]
         [block 15 6 (TILE * 2) (TILE * 2); block 20 3 (TILE * 3) TILE;
          block 20 14 (TILE * 3) TILE]
         [block 12 4 TILE TILE; block 12 12 TILE TILE]
         [block 6 6 TILE TILE; block 24 12 TILE TILE]
         (Some (CratePuzzle false))
         (gate r), store)
  | 3%nat =>
      (mkRegion (cols r) (rows r)
         [newSeed 12 8; newSeed 18 10]
         [block 26 7 (TILE * 3) TILE; block 5 10 (TILE * 2) (TILE * 2)]
         []
         []
         (Some (createTeleporterPuzzle [at_tile 22 4; at_tile 8 14]))
         (gate r), store)
  | 4%nat =>
      (mkRegion (cols r) (rows r)
         []
         [block 8 10 (TILE * 2) (TILE * 2)]
         []
         []
         None
         (gate r), store)
  | _ => (mkRegion (cols r) (rows r) [] [] [] [] None (gate r), store)
  end.

(** [r.gate = { x: r.cols*TILE - 8, y: 0, w: 16, h: r.rows * TILE,
    closed: (r.puzzle && r.puzzle.blocksExit()) }] for regions 0 to 3. *)
Definition withGate (i : nat) (r : Region) : Region :=
  if (i <=? 3)%nat
  then mkRegion (cols r) (rows r) (seeds r) (obstacles r) (crates r) (targets r) (puzzle r)
         (Some (mkGate (mkRect (cols r * TILE - 8) 0 16 (rows r * TILE))
                       (match puzzle r with Some p => blocksExit p | None => false end)))
  else r.

Fixpoint generateRegions (i : nat) (rs : list Region) (store : gmap string Interaction)
    : list Region * gmap string Interaction :=
  match rs with
  | [] => ([], store)
  | r :: rs' =>
      let '(r', store') := regionContent i r store in
      let '(rs'', store'') := generateRegions (S i) rs' store' in
      (withGate i r' :: rs'', store'')
  end.

(** [generateContent()] *)
Definition generateContent (g : Game) : Game :=
  let '(rs, store) := generateRegions 0 (regions g) (puzzlePadInteraction g) in
  mkGame (currentRegion g) (player g) (gameTime g) (flashTimer g) (paused g)
         (interactionPending g) rs store (events g).

(** ** Collision and movement *)

(** [regions[currentRegion]]; using it when it is [undefined] throws. *)
Definition currentRegionOf (g : Game) : Res Region :=
  match regions g !! currentRegion g with
  | Some r => Ok r
  | None => Throw
  end.

(** [l.find(pred)], with the position of the element found, which stands
    for the identity of the object. *)
Fixpoint find_from {A} (pred : A -> bool) (i : nat) (l : list A) : option (nat * A) :=
  match l with
  | [] => None
  | a :: l' => if pred a then Some (i, a) else find_from pred (S i) l'
  end.

(** Is there an element, other than the one at position [exclude], that
    satisfies [pred]? *)
Fixpoint exists_other {A} (pred : A -> bool) (exclude : option nat) (i : nat) (l : list A) : bool :=
  match l with
  | [] => false
  | a :: l' =>
      (negb (bool_decide (exclude = Some i)) && pred a) || exists_other pred exclude (S i) l'
  end.

(** [function canRectMoveTo(rect, currentRegion, excludeCrate = null)] *)
Definition canRectMoveTo (rect : Rect) (r : Region) (excludeCrate : option nat) : bool :=
  if ltq (rx rect) 0 || ltq (ry rect) 0
     || gtq (rx rect + rw rect) (cols r * TILE) || gtq (ry rect + rh rect) (rows r * TILE)
  then false
  else if existsb (fun o => rectOverlap rect o) (obstacles r) then false
  else if exists_other (fun c => rectOverlap rect c) excludeCrate 0 (crates r) then false
  else true.

(** [function canPlayerMoveTo(nx, ny)], in the region [r = regions[currentRegion]] *)
Definition canPlayerMoveTo (r : Region) (nx ny : Q) : bool :=
  let rect := mkRect nx ny player_w player_h in
  if existsb (fun o => rectOverlap rect o) (obstacles r) then false
  else if match gate r with
          | Some gt => closed gt && rectOverlap rect (gate_rect gt)
          | None => false
          end
  then false
  else if ltq nx (- TILE) || ltq ny (- TILE)
          || gtq (nx + player_w) (cols r * TILE + TILE)
          || gtq (ny + player_h) (rows r * TILE + TILE)
  then false
  else true.

Definition setCrates (r : Region) (cs : list Rect) : Region :=
  mkRegion (cols r) (rows r) (seeds r) (obstacles r) cs (targets r) (puzzle r) (gate r).

(** The horizontal attempt of [movePlayer]: the crates and [newPlayerX]. *)
Definition moveHorizontal (r : Region) (x y dx : Q) : list Rect * Q :=
  if neq dx 0 then
    let nx := x + dx in
    let attemptedRect := mkRect nx y player_w player_h in
    match find_from (fun c => rectOverlap attemptedRect c) 0 (crates r) with
    | Some (i, collidedCrate) =>
        let ncx := rx collidedCrate + dx in
        let ncy := ry collidedCrate in
        let nextCrateRect := mkRect ncx ncy (rw collidedCrate) (rh collidedCrate) in
        if canRectMoveTo nextCrateRect r (Some i)
        then (<[i := mkRect ncx (ry collidedCrate) (rw collidedCrate) (rh collidedCrate)]>
                (crates r), nx)
        else (crates r, x)
    | None =>
        if canPlayerMoveTo r nx y then (crates r, nx) else (crates r, x)
    end
  else (crates r, x).

(** The vertical attempt of [movePlayer]: the crates and [newPlayerY]. *)
Definition moveVertical (r : Region) (newPlayerX y dy : Q) : list Rect * Q :=
  if neq dy 0 then
    let ny := y + dy in
    let attemptedRect := mkRect newPlayerX ny player_w player_h in
    match find_from (fun c => rectOverlap attemptedRect c) 0 (crates r) with
    | Some (i, collidedCrate) =>
        let ncx := rx collidedCrate in
        let ncy := ry collidedCrate + dy in
        let nextCrateRect := mkRect ncx ncy (rw collidedCrate) (rh collidedCrate) in
        if canRectMoveTo nextCrateRect r (Some i)
        then (<[i := mkRect (rx collidedCrate) ncy (rw collidedCrate) (rh collidedCrate)]>
                (crates r), ny)
        else (crates r, y)
    | None =>
        if canPlayerMoveTo r newPlayerX ny then (crates r, ny) else (crates r, y)
    end
  else (crates r, y).

Definition setRegion (g : Game) (r : Region) : list Region :=
  <[currentRegion g := r]> (regions g).

(** [function movePlayer(dx, dy)] *)
Definition movePlayer (dx dy : Q) (g : Game) : Res Game :=
  let! r := currentRegionOf g in
  let '(crates1, newPlayerX) := moveHorizontal r (player_x (player g)) (player_y (player g)) dx in
  let r1 := setCrates r crates1 in
  let '(crates2, newPlayerY) := moveVertical r1 newPlayerX (player_y (player g)) dy in
  let r2 := setCrates r1 crates2 in
  Ok (mkGame (currentRegion g) (mkPlayer newPlayerX newPlayerY) (gameTime g) (flashTimer g)
        (paused g) (interactionPending g) (setRegion g r2) (puzzlePadInteraction g) (events g)).

(** ** The per-frame update *)

(** The loop of [updateSeeds(dt)] over the seeds of the current region:
    the seeds, how many were collected now. *)
Fixpoint collectSeeds (pl : Rect) (dt : Q) (l : list Seed) : list Seed * nat :=
  match l with
  | [] => ([], 0%nat)
  | s :: l' =>
      let '(l'', n) := collectSeeds pl dt l' in
      let pulse' := pulse s + dt * (6 # 1000) in
      if collected s then (mkSeed (seed_pos s) true pulse' :: l'', n)
      else if rectOverlap pl (tileRect (seed_pos s))
      then (mkSeed (seed_pos s) true pulse' :: l'', S n)
      else (mkSeed (seed_pos s) false pulse' :: l'', n)
  end.

Definition setSeeds (r : Region) (ss : list Seed) : Region :=
  mkRegion (cols r) (rows r) ss (obstacles r) (crates r) (targets r) (puzzle r) (gate r).

(** [function updateSeeds(dt)]; each collected seed plays the seed sound
    and requests a save. *)
Definition updateSeeds (dt : Q) (g : Game) : Res Game :=
  let! r := currentRegionOf g in
  let '(ss, n) := collectSeeds (playerRect (player g)) dt (seeds r) in
  Ok (mkGame (currentRegion g) (player g) (gameTime g)
        (if (0 <? n)%nat then 18 else flashTimer g)
        (paused g) (interactionPending g) (setRegion g (setSeeds r ss))
        (puzzlePadInteraction g)
        (events g ++ concat (replicate n [SfxSeed; SaveGame]))).

(** [p.update(player, interaction)] for the puzzle [p] of region [r]. *)
Definition update (pl : Player) (interaction : bool) (r : Region)
    (store : gmap string Interaction) (p : Puzzle)
    : Puzzle * gmap string Interaction * list Event :=
  match p with
  | DynamicPlatePuzzle sv platesData =>
      let '(p', ev) := plate_update (playerRect pl) (crates r) sv platesData in
      (p', store, ev)
  | StrictSequencePuzzle sv index pads padKey =>
      sequence_update (player_x pl) (player_y pl) sv index pads padKey store
  | CratePuzzle sv =>
      let '(p', ev) := crate_update (crates r) (targets r) sv in
      (p', store, ev)
  | TeleporterPuzzle sv teleporterData =>
      let '(p', ev) := teleporter_update (playerRect pl) interaction sv teleporterData in
      (p', store, ev)
  end.

Definition setPuzzleAndGate (r : Region) (p : Puzzle) : Region :=
  mkRegion (cols r) (rows r) (seeds r) (obstacles r) (crates r) (targets r) (Some p)
    (match gate r with
     | Some gt => Some (mkGate (gate_rect gt) (blocksExit p))
     | None => None
     end).

(** [function updatePuzzle(dt)]; [interactDown] is
    [keys[INTERACT_KEY] || keys['enter']]. *)
Definition updatePuzzle (interactDown : bool) (g : Game) : Res Game :=
  let! r := currentRegionOf g in
  match puzzle r with
  | None => Ok g
  | Some p =>
      let interaction := interactDown && negb (interactionPending g) in
      let interactionPending' := interactDown in
      let '(p', store, ev) := update (player g) interaction r (puzzlePadInteraction g) p in
      Ok (mkGame (currentRegion g) (player g) (gameTime g) (flashTimer g) (paused g)
            interactionPending' (setRegion g (setPuzzleAndGate r p')) store (events g ++ ev))
  end.

(** The position state threaded through [checkRegionSwitch]:
    [currentRegion], [player.x], [player.y], [moved]. *)
Record Switch := mkSwitch { sw_region : nat; sw_x : Q; sw_y : Q; sw_moved : bool }.

Definition lookupRes {A} (l : list A) (i : nat) : Res A :=
  match l !! i with
  | Some a => Ok a
  | None => Throw
  end.

(** The four blocks of [checkRegionSwitch]; [region] is the region the
    function started in. *)
Definition switchRight (rs : list Region) (region : Region) (s : Switch) : Res Switch :=
  if gtq (sw_x s + player_w) (cols region * TILE) then
    let! e := lookupRes regionEdges (sw_region s) in
    match edge_right e with
    | Some next =>
        let relY := sw_y s / (rows region * TILE) in
        let! r' := lookupRes rs next in
        Ok (mkSwitch next 2
              (clamp (round (relY * rows r' * TILE)) 2 (rows r' * TILE - player_h - 2)) true)
    | None => Ok (mkSwitch (sw_region s) (cols region * TILE - player_w) (sw_y s) (sw_moved s))
    end
  else Ok s.

Definition switchLeft (rs : list Region) (region : Region) (s : Switch) : Res Switch :=
  if ltq (sw_x s) 0 then
    let! e := lookupRes regionEdges (sw_region s) in
    match edge_left e with
    | Some next =>
        let relY := sw_y s / (rows region * TILE) in
        let! r' := lookupRes rs next in
        Ok (mkSwitch next (cols r' * TILE - player_w - 2)
              (clamp (round (relY * rows r' * TILE)) 2 (rows r' * TILE - player_h - 2)) true)
    | None => Ok (mkSwitch (sw_region s) 0 (sw_y s) (sw_moved s))
    end
  else Ok s.

Definition switchTop (rs : list Region) (region : Region) (s : Switch) : Res Switch :=
  if ltq (sw_y s) 0 then
    let! e := lookupRes regionEdges (sw_region s) in
    match edge_up e with
    | Some next =>
        let relX := sw_x s / (cols region * TILE) in
        let! r' := lookupRes rs next in
        let y' := rows r' * TILE - player_h - 2 in
        Ok (mkSwitch next
              (clamp (round (relX * cols r' * TILE)) 2 (cols r' * TILE - player_w - 2)) y' true)
    | None => Ok (mkSwitch (sw_region s) (sw_x s) 0 (sw_moved s))
    end
  else Ok s.

Definition switchBottom (rs : list Region) (region : Region) (s : Switch) : Res Switch :=
  if gtq (sw_y s + player_h) (rows region * TILE) then
    let! e := lookupRes regionEdges (sw_region s) in
    match edge_down e with
    | Some next =>
        let relX := sw_x s / (cols region * TILE) in
        let! r' := lookupRes rs next in
        Ok (mkSwitch next
              (clamp (round (relX * cols r' * TILE)) 2 (cols r' * TILE - player_w - 2)) 2 true)
    | None => Ok (mkSwitch (sw_region s) (sw_x s) (rows region * TILE - player_h) (sw_moved s))
    end
  else Ok s.

(** [function checkRegionSwitch()] *)
Definition checkRegionSwitch (g : Game) : Res Game :=
  let! region := currentRegionOf g in
  let s0 := mkSwitch (currentRegion g) (player_x (player g)) (player_y (player g)) false in
  let! s1 := switchRight (regions g) region s0 in
  let! s2 := switchLeft (regions g) region s1 in
  let! s3 := switchTop (regions g) region s2 in
  let! s4 := switchBottom (regions g) region s3 in
  Ok (mkGame (sw_region s4) (mkPlayer (sw_x s4) (sw_y s4)) (gameTime g) (flashTimer g)
        (paused g) (interactionPending g) (regions g) (puzzlePadInteraction g)
        (events g ++ if sw_moved s4 then [FadeToRegion (sw_region s4); SaveGame] else [])).

(** [function checkWinCondition()] *)
Definition checkWinCondition (g : Game) : Game :=
  let allCollected := forallb (fun r => forallb collected (seeds r)) (regions g) in
  if negb allCollected then g
  else if negb (currentRegion g =? 4)%nat then g
  else if rectOverlap (playerRect (player g)) monument
  then mkGame (currentRegion g) (player g) (gameTime g) (flashTimer g) true
         (interactionPending g) (regions g) (puzzlePadInteraction g)
         (events g ++ [SfxWin; SubmitScore])
  else g.

(** The keys held during a frame and the time since the last one. *)
Record Input := mkInput {
  key_up : bool; key_down : bool; key_left : bool; key_right : bool;
  key_interact : bool; dt : Q
}.

Definition axis (minus plus : bool) : Q :=
  (if minus then - player_speed else 0) + (if plus then player_speed else 0).

(** The displacement the loop derives from the keys. *)
Definition intent (i : Input) : Q * Q :=
  let dy := axis (key_up i) (key_down i) in
  let dx := axis (key_left i) (key_right i) in
  if neq dx 0 && neq dy 0 then (dx * (7071 # 10000), dy * (7071 # 10000)) else (dx, dy).

Definition addTime (d : Q) (g : Game) : Game :=
  mkGame (currentRegion g) (player g) (gameTime g + d) (flashTimer g) (paused g)
         (interactionPending g) (regions g) (puzzlePadInteraction g) (events g).

(** The simulation part of [function loop(now)]: what one frame does to the
    session state when the game is not paused. *)
Definition tick (i : Input) (g : Game) : Res Game :=
  if paused g then Ok g
  else
    let '(dx, dy) := intent i in
    let! g1 := movePlayer dx dy g in
    let g2 := addTime (dt i) g1 in
    let! g3 := updateSeeds (dt i) g2 in
    let! g4 := updatePuzzle (key_interact i) g3 in
    let! g5 := checkRegionSwitch g4 in
    Ok (checkWinCondition g5).

(** Running the frames of a list of inputs, first input first. *)
Fixpoint run (inputs : list Input) (g : Game) : Res Game :=
  match inputs with
  | [] => Ok g
  | i :: inputs' => let! g' := tick i g in run inputs' g'
  end.

(** ** Loading a save *)

(** A column of the save row that holds JSON text: not a string at all, a
    string [JSON.parse] rejects, or a string that parses to a value. *)
Inductive Field :=
| NotAString
| BadJson
| Json (v : JsVal).

(** The row [api/load.php] answers with, its scalar columns already read
    by [parseInt] and [parseFloat]. *)
Record Snapshot := mkSnapshot {
  st_region : nat;
  st_pos_x : Q;
  st_pos_y : Q;
  st_game_time : Q;
  st_seeds : Field;
  st_crates : Field;
  st_puzzles : Field
}.

(** What [fetch] and [response.json()] give [loadGame]: a failure (network,
    HTTP status, body), no row ([null], or no [player_name]), or a row. *)
Inductive Response :=
| FetchFailed
| NoSave
| Saved (st : Snapshot).

(** A restore loop ran to its end, or threw after mutating the state up to
    [a], or met a value this development has no type for. *)
Inductive Restore (A : Type) :=
| Restored (a : A)
| Aborted (a : A)
| Unrepresented.
Arguments Restored {A} a.
Arguments Aborted {A} a.
Arguments Unrepresented {A}.

(** [arr.forEach((collected, sidx) => { if (... seeds[sidx]) seeds[sidx].collected = !!collected; })] *)
Fixpoint restoreFlags (flags : list JsVal) (ss : list Seed) : list Seed :=
  match flags, ss with
  | c :: flags', s :: ss' => mkSeed (seed_pos s) (truthy c) (pulse s) :: restoreFlags flags' ss'
  | _, _ => ss
  end.

(** [loadedSeeds.forEach((arr, ridx) => ...)] from row [ridx] on. *)
Fixpoint restoreSeedRows (loaded : list JsVal) (ridx : nat) (rs : list Region)
    : Restore (list Region) :=
  match loaded with
  | [] => Restored rs
  | JArr flags :: loaded' =>
      restoreSeedRows loaded' (S ridx)
        (match rs !! ridx with
         | Some r => <[ridx := setSeeds r (restoreFlags flags (seeds r))]> rs
         | None => rs
         end)
  | _ :: _ => Aborted rs
  end.

(** [arr.forEach((pos, cidx) => { if (... crates[cidx]) { crates[cidx].x = pos.x;
    crates[cidx].y = pos.y; } })] *)
Fixpoint restoreCrateRow (arr : list JsVal) (cs : list Rect) : Restore (list Rect) :=
  match arr, cs with
  | pos :: arr', c :: cs' =>
      match getProp pos "x", getProp pos "y" with
      | Ok vx, Ok vy =>
          match asNum vx, asNum vy with
          | Ok x, Ok y =>
              let c' := mkRect x y (rw c) (rh c) in
              match restoreCrateRow arr' cs' with
              | Restored l => Restored (c' :: l)
              | Aborted l => Aborted (c' :: l)
              | Unrepresented => Unrepresented
              end
          | _, _ => Unrepresented
          end
      | _, _ => Aborted (c :: cs')
      end
  | _, _ => Restored cs
  end.

(** [loadedCrates.forEach((arr, ridx) => ...)] from row [ridx] on. *)
Fixpoint restoreCrateRows (loaded : list JsVal) (ridx : nat) (rs : list Region)
    : Restore (list Region) :=
  match loaded with
  | [] => Restored rs
  | JArr arr :: loaded' =>
      match rs !! ridx with
      | Some r =>
          match restoreCrateRow arr (crates r) with
          | Restored cs => restoreCrateRows loaded' (S ridx) (<[ridx := setCrates r cs]> rs)
          | Aborted cs => Aborted (<[ridx := setCrates r cs]> rs)
          | Unrepresented => Unrepresented
          end
      | None => restoreCrateRows loaded' (S ridx) rs
      end
  | _ :: _ => Aborted rs
  end.

Definition setPuzzle (r : Region) (p : Puzzle) : Region :=
  mkRegion (cols r) (rows r) (seeds r) (obstacles r) (crates r) (targets r) (Some p) (gate r).

(** [loadedPuzzles.forEach((pv, ridx) => ...)] from entry [ridx] on. *)
Fixpoint restorePuzzles (loaded : list JsVal) (ridx : nat)
    (rs : list Region) (store : gmap string Interaction)
    : Restore (list Region * gmap string Interaction) :=
  match loaded with
  | [] => Restored (rs, store)
  | pv :: loaded' =>
      match rs !! ridx with
      | Some r =>
          match puzzle r with
          | Some p =>
              match setState pv store p with
              | Ok (p', store') =>
                  restorePuzzles loaded' (S ridx) (<[ridx := setPuzzle r p']> rs) store'
              | Throw => Aborted (rs, store)
              | Untyped => Unrepresented
              end
          | None => restorePuzzles loaded' (S ridx) rs store
          end
      | None => restorePuzzles loaded' (S ridx) rs store
      end
  end.

(** What [loadGame] returns, with the state it leaves behind. *)
Inductive Load :=
| Returned (loaded : bool) (g : Game)
| LoadUnrepresented.

Definition setRegions (g : Game) (rs : list Region) (store : gmap string Interaction) : Game :=
  mkGame (currentRegion g) (player g) (gameTime g) (flashTimer g) (paused g)
         (interactionPending g) rs store (events g).

(** The inner [try] block of [loadGame]: seeds, then crates, then puzzles;
    whatever is thrown is caught and answered with [false]. *)
Definition restoreComponents (st : Snapshot) (g : Game) : Load :=
  match st_seeds st with
  | Json (JArr loadedSeeds) =>
      match restoreSeedRows loadedSeeds 0 (regions g) with
      | Restored rs1 =>
          match st_crates st with
          | Json (JArr loadedCrates) =>
              match restoreCrateRows loadedCrates 0 rs1 with
              | Restored rs2 =>
                  match st_puzzles st with
                  | Json (JArr loadedPuzzles) =>
                      match restorePuzzles loadedPuzzles 0 rs2 (puzzlePadInteraction g) with
                      | Restored (rs3, store) => Returned true (setRegions g rs3 store)
                      | Aborted (rs3, store) => Returned false (setRegions g rs3 store)
                      | Unrepresented => LoadUnrepresented
                      end
                  | _ => Returned false (setRegions g rs2 (puzzlePadInteraction g))
                  end
              | Aborted rs2 => Returned false (setRegions g rs2 (puzzlePadInteraction g))
              | Unrepresented => LoadUnrepresented
              end
          | _ => Returned false (setRegions g rs1 (puzzlePadInteraction g))
          end
      | Aborted rs1 => Returned false (setRegions g rs1 (puzzlePadInteraction g))
      | Unrepresented => LoadUnrepresented
      end
  | _ => Returned false g
  end.

(** [async function loadGame()] *)
Definition loadGame (resp : Response) (g : Game) : Load :=
  match resp with
  | FetchFailed => Returned false g
  | NoSave => Returned false g
  | Saved st =>
      let g1 :=
        mkGame (st_region st) (mkPlayer (st_pos_x st) (st_pos_y st)) (st_game_time st)
               (flashTimer g) (paused g) (interactionPending g) (regions g)
               (puzzlePadInteraction g) (events g) in
      restoreComponents st g1
  end.

(** [regions[i].gate.closed = regions[i].puzzle && regions[i].puzzle.blocksExit()]
    for the regions 0 to 3 that have a gate. *)
Definition syncGate (i : nat) (r : Region) : Region :=
  if (i <=? 3)%nat then
    match gate r with
    | Some gt =>
        mkRegion (cols r) (rows r) (seeds r) (obstacles r) (crates r) (targets r) (puzzle r)
          (Some (mkGate (gate_rect gt)
                        (match puzzle r with Some p => blocksExit p | None => false end)))
    | None => r
    end
  else r.

(** [async function initGame(newGame = false)], up to the start of the loop;
    [resp] is what the server would answer to [loadGame]. *)
Definition initGame (newGame : bool) (resp : Response) (g : Game) : Res Game :=
  let g1 := generateContent g in
  let! lg :=
    (if newGame then Ok (false, g1)
     else match loadGame resp g1 with
          | Returned loaded g2 => Ok (loaded, g2)
          | LoadUnrepresented => Untyped
          end) in
  let '(loaded, g2) := lg in
  let g3 :=
    if loaded then g2
    else mkGame 0 (mkPlayer (TILE * 3) (TILE * 3)) 0 (flashTimer g2) (paused g2)
                (interactionPending g2) (regions g2) (puzzlePadInteraction g2)
                (events g2 ++ [SaveGame]) in
  Ok (mkGame (currentRegion g3) (player g3) (gameTime g3) (flashTimer g3) false
        (interactionPending g3) (imap syncGate (regions g3)) (puzzlePadInteraction g3)
        (events g3)).

(** The globals as the script declares them, before [initGame] runs. *)
Definition pageLoad : Game :=
  mkGame 0 (mkPlayer (TILE * 3) (TILE * 3)) 0 0 false false regions0 ∅ [].

(** What persists of a session state in a save: per region the collected
    flags, the crate positions and the puzzle snapshot; the region, the
    position and the time. *)
Definition regionState (store : gmap string Interaction) (r : Region)
    : list bool * list (Q * Q) * option JsVal :=
  (map collected (seeds r), map (fun c => (rx c, ry c)) (crates r),
   option_map (getState store) (puzzle r)).

Definition sessionState (g : Game)
    : nat * Player * Q * list (list bool * list (Q * Q) * option JsVal) :=
  (currentRegion g, player g, gameTime g, map (regionState (puzzlePadInteraction g)) (regions g)).

(** ** Well-formed sessions and scenarios *)

(** The shape [regions] has from the array literal on: five regions, all of
    [COLS] x [ROWS] tiles, and a current region among them. *)
Definition wf (g : Game) : Prop :=
  length (regions g) = 5%nat /\
  (currentRegion g < 5)%nat /\
  Forall (fun r => cols r = COLS /\ rows r = ROWS) (regions g).

(** The rectangle [c] lies inside the pixel bounds of region [r]. *)
Definition inside (c : Rect) (r : Region) : Prop :=
  0 <= rx c /\ rx c + rw c <= cols r * TILE /\
  0 <= ry c /\ ry c + rh c <= rows r * TILE.

(** The player's rectangle lies inside the region that is current. *)
Definition contained (g : Game) : Prop :=
  exists r, regions g !! currentRegion g = Some r /\ inside (playerRect (player g)) r.

(** The sequence puzzle of region 1 in its initial state, and the player
    standing at each of a list of positions in turn, one update each. *)
Definition sequenceStart : Puzzle * gmap string Interaction * list Event :=
  (StrictSequencePuzzle false 0 sequencePads sequenceKey,
   {[ sequenceKey := freshInteraction ]}, []).

Definition stand (st : Puzzle * gmap string Interaction * list Event) (xy : Q * Q)
    : Puzzle * gmap string Interaction * list Event :=
  match st with
  | (StrictSequencePuzzle sv index pads padKey, store, ev) =>
      let '(p, store', ev') := sequence_update xy.1 xy.2 sv index pads padKey store in
      (p, store', ev ++ ev')
  | _ => st
  end.

Definition walk (positions : list (Q * Q)) : Puzzle * gmap string Interaction * list Event :=
  foldl stand sequenceStart positions.

(** The positions of a player who starts at [p] and moves by one of [legs]
    per frame; a step is the player's speed along one axis. *)
Fixpoint route (p : Q * Q) (legs : list (Q * Q)) : list (Q * Q) :=
  match legs with
  | [] => []
  | d :: legs' => let p' := (p.1 + d.1, p.2 + d.2) in p' :: route p' legs'
  end.

Definition stepUp : Q * Q := (0, - player_speed).
Definition stepDown : Q * Q := (0, player_speed).
Definition stepRight : Q * Q := (player_speed, 0).

(** Below the row of pads: step up onto a pad and down off it again, then
    along to the next pad, for the three pads in order. *)
Definition visitFromBelow : list (Q * Q) :=
  route (800, 290)
    ([stepUp; stepDown] ++ replicate 11 stepRight ++
     [stepUp; stepDown] ++ replicate 11 stepRight ++
     [stepUp; stepDown]).

(** The same above the row: down onto a pad and up off it. *)
Definition visitFromAbove : list (Q * Q) :=
  route (800, 222)
    ([stepDown; stepUp] ++ replicate 11 stepRight ++
     [stepDown; stepUp] ++ replicate 11 stepRight ++
     [stepDown; stepUp]).

(** The index, the interaction entry and [solved] of a sequence puzzle. *)
Definition progress (st : Puzzle * gmap string Interaction * list Event)
    : option (bool * Z * Interaction) :=
  match st with
  | (StrictSequencePuzzle sv index _ padKey, store, _) =>
      Some (sv, index, padInteraction store padKey)
  | _ => None
  end.

(** Region 0 as [generateContent] makes it. *)
Definition entrance : Region := withGate 0 (regionContent 0 emptyRegion ∅).1.

(** Frames with one key held. *)
Definition holdDown : Input := mkInput false true false false false 16.
Definition holdRight : Input := mkInput false false false true false 16.
Definition holdLeft : Input := mkInput false false true false false 16.
Definition holdUp : Input := mkInput true false false false false 16.

(** A new game started on a freshly loaded page. *)
Definition newGame : Res Game := initGame true NoSave pageLoad.

(** In a new game: walk down to the row of the crate of region 0, then
    right, pushing the crate towards the gate. *)
Definition pushCrateToGate (frames : nat) : Res Game :=
  let! g := newGame in
  run (replicate 32 holdDown ++ replicate frames holdRight) g.

(** The gate of the current region and its crates, each with whether it
    overlaps the gate. *)
Definition gateView (res : Res Game) : option (bool * list (Rect * bool)) :=
  match res with
  | Ok g =>
      match regions g !! currentRegion g with
      | Some r =>
          match gate r with
          | Some gt =>
              Some (closed gt, map (fun c => (c, rectOverlap c (gate_rect gt))) (crates r))
          | None => None
          end
      | None => None
      end
  | _ => None
  end.

(** A view of the session [initGame] leaves. *)
Definition after {A} (view : Game -> A) (res : Res Game) : option A :=
  match res with
  | Ok g => Some (view g)
  | _ => None
  end.

Definition whereAndWhen (g : Game) : nat * Player * Q :=
  (currentRegion g, player g, gameTime g).

Definition collectedFlags (g : Game) : list (list bool) :=
  map (fun r => map collected (seeds r)) (regions g).

Definition loadAnswer (l : Load) : option bool :=
  match l with
  | Returned loaded _ => Some loaded
  | LoadUnrepresented => None
  end.

(** The save [checkRegionSwitch] requests when the player enters region 2
    at height 420, the puzzles of regions 0 and 1 solved: the row a later
    [loadGame] gets back. *)
Definition cratePosition (x y : Q) : JsVal := JObj [("x", JNum x); ("y", JNum y)].
Definition solvedOnly (b : bool) : JsVal := JObj [("solved", JBool b)].
Definition ruinsSave : Snapshot :=
  mkSnapshot 2 2 420 60000
    (Json (JArr [JArr [JBool true]; JArr [JBool true]; JArr [JBool false];
                 JArr [JBool false; JBool false]; JArr []]))
    (Json (JArr [JArr [cratePosition 225 189]; JArr [];
                 JArr [cratePosition 384 128; cratePosition 384 384]; JArr []; JArr []]))
    (Json (JArr [solvedOnly true;
                 JObj [("solved", JBool true); ("index", JNum 3);
                       ("enteredCorrectPad", JBool false); ("lastHitIndex", JNum (-1))];
                 solvedOnly false;
                 JObj [("solved", JBool false);
                       ("activeStates", JArr [JBool false; JBool false])];
                 solvedOnly false])).

(** Resumed in region 2: push the second crate up until it rests below the
    first, step to the left of both, walk right into them (the first crate
    is pushed, the second is walked into), then down and right with the
    second crate for [frames] frames. *)
Definition carryCrateToGate (frames : nat) : Res Game :=
  let! g := initGame false (Saved ruinsSave) pageLoad in
  run (replicate 128 holdRight ++ replicate 75 holdUp ++ replicate 9 holdLeft
       ++ replicate 12 holdUp ++ replicate 12 holdRight ++ replicate 33 holdDown
       ++ replicate frames holdRight) g.

(** The region, the player, and whether region 2 is still unsolved behind
    a closed gate. *)
Definition ruinsView (res : Res Game) : option (nat * Player * bool) :=
  match res with
  | Ok g =>
      match regions g !! 2%nat with
      | Some r =>
          Some (currentRegion g, player g,
                match puzzle r, gate r with
                | Some p, Some gt => negb (solved p) && closed gt
                | _, _ => false
                end)
      | None => None
      end
  | _ => None
  end.

(** A save row whose seeds column is sound and whose crates column is
    [NULL], which the table allows. *)
Definition brokenSave : Snapshot :=
  mkSnapshot 2 500 100 9000 (Json (JArr [JArr [JBool true]])) NotAString (Json (JArr [])).

(** ** Further parts of the script *)

Definition VIEW_W : Q := 768.
Definition VIEW_H : Q := 576.

(** The camera of [loop]: [camX], [camY]. *)
Definition camera (g : Game) : Res (Q * Q) :=
  let! region := currentRegionOf g in
  Ok (clamp (round (player_x (player g) - VIEW_W / 2 + player_w / 2)) 0
            (Math_max 0 (cols region * TILE - VIEW_W)),
      clamp (round (player_y (player g) - VIEW_H / 2 + player_h / 2)) 0
            (Math_max 0 (rows region * TILE - VIEW_H))).

(** [Math.trunc], and the remainder [a % n] of two numbers, which has the
    sign of [a]. *)
Definition trunc (v : Q) : Z := if Qle_bool 0 v then Qfloor v else Qceiling v.
Definition remainder (a n : Q) : Q := a - n * inject_Z (trunc (a / n)).

(** The three numbers [formatTime(ms)] prints: [minutes], [seconds] and
    [milliseconds] (which holds hundredths). *)
Definition timeParts (ms : Q) : Z * Z * Z :=
  let totalSeconds := Qfloor (ms / 1000) in
  let minutes := (totalSeconds / 60)%Z in
  let seconds := Z.rem totalSeconds 60 in
  let milliseconds := Qfloor (remainder ms 1000 / 10) in
  (minutes, seconds, milliseconds).

(** [String(num).padStart(length, '0')] for an integer [num]. *)
Definition pad (num : Z) (len : nat) : string :=
  let digits := pretty num in
  String.concat "" (replicate (len - String.length digits) "0") +:+ digits.

(** [function formatTime(ms)] *)
Definition formatTime (ms : Q) : string :=
  let '(minutes, seconds, milliseconds) := timeParts ms in
  pad minutes 2 +:+ ":" +:+ pad seconds 2 +:+ "." +:+ pad milliseconds 2.

(** The two sums of [updateSeedCounter]: [total] and [collected]. *)
Definition seedTotal (rs : list Region) : nat :=
  foldl (fun sum r => (sum + length (seeds r))%nat) 0%nat rs.
Definition seedCollected (rs : list Region) : nat :=
  foldl (fun sum r => (sum + length (filter (fun sd => collected sd = true) (seeds r)))%nat)
        0%nat rs.

(** The text [updateSeedCounter] writes. *)
Definition updateSeedCounter (g : Game) : string :=
  "Seeds: " +:+ pretty (seedCollected (regions g)) +:+ "/" +:+ pretty (seedTotal (regions g)).

(** The body [saveGame] posts, as the row a later [loadGame] is answered
    with when the server hands back each column as it was sent: the three
    JSON columns as text of the values, the scalar columns unchanged.  (The
    table declares the scalar columns [INT]; what the database does to a
    fractional position is not part of the script.) *)
Definition savedSeeds (rs : list Region) : JsVal :=
  JArr (map (fun r => JArr (map (fun sd => JBool (collected sd)) (seeds r))) rs).
Definition savedCrates (rs : list Region) : JsVal :=
  JArr (map (fun r => JArr (map (fun c => JObj [("x", JNum (rx c)); ("y", JNum (ry c))])
                                (crates r))) rs).
Definition savedPuzzles (store : gmap string Interaction) (rs : list Region) : JsVal :=
  JArr (map (fun r => match puzzle r with
                      | Some p => getState store p
                      | None => JObj [("solved", JBool false)]
                      end) rs).
Definition savePayload (g : Game) : Snapshot :=
  mkSnapshot (currentRegion g) (player_x (player g)) (player_y (player g)) (gameTime g)
    (Json (savedSeeds (regions g)))
    (Json (savedCrates (regions g)))
    (Json (savedPuzzles (puzzlePadInteraction g) (regions g))).

(** ** What play never changes, and what it keeps true *)

(** A puzzle and a region with everything that play, saving and loading
    write taken out: flags cleared, crates at the origin, gates open. *)
Definition puzzleLayout (p : Puzzle) : Puzzle :=
  match p with
  | DynamicPlatePuzzle _ platesData =>
      DynamicPlatePuzzle false (map (fun pl => mkPlate (plate_pos pl) false) platesData)
  | StrictSequencePuzzle _ _ pads padKey => StrictSequencePuzzle false 0 pads padKey
  | CratePuzzle _ => CratePuzzle false
  | TeleporterPuzzle _ teleporterData =>
      TeleporterPuzzle false (map (fun t => mkTeleporter (tele_pos t) false) teleporterData)
  end.

Definition layout (r : Region) : Region :=
  mkRegion (cols r) (rows r)
    (map (fun sd => mkSeed (seed_pos sd) false 0) (seeds r))
    (obstacles r)
    (map (fun c => mkRect 0 0 (rw c) (rh c)) (crates r))
    (targets r)
    (option_map puzzleLayout (puzzle r))
    (option_map (fun gt => mkGate (gate_rect gt) false) (gate r)).

(** The layout of the five regions as [generateContent] makes them. *)
Definition generatedLayout : list Region :=
  map layout (regions (generateContent pageLoad)).

(** Every crate of the region is inside its bounds and clear of the
    obstacles, and no two crates overlap. *)
Definition cratesPlaced (r : Region) : Prop :=
  (forall i c, crates r !! i = Some c ->
     inside c r /\ Forall (fun o => rectOverlap c o = false) (obstacles r)) /\
  (forall i j ci cj, i <> j -> crates r !! i = Some ci -> crates r !! j = Some cj ->
     rectOverlap ci cj = false).

(** The gate of the region, if it has one, is closed exactly when its
    puzzle blocks the exit. *)
Definition gateSynced (r : Region) : Prop :=
  match gate r with
  | Some gt => closed gt = match puzzle r with Some p => blocksExit p | None => false end
  | None => True
  end.

(** Progress made in region [r] is still there in [r']: collected seeds
    stay collected, a solved puzzle stays solved. *)
Definition keepsProgress (r r' : Region) : Prop :=
  Forall2 (fun sd sd' => collected sd = true -> collected sd' = true) (seeds r) (seeds r') /\
  match puzzle r, puzzle r' with
  | Some p, Some p' => solved p = true -> solved p' = true
  | None, None => True
  | _, _ => False
  end.

(** The index of an unsolved sequence puzzle names one of its pads, a
    solved one has run through them all, and while the entered flag is set
    the pad last hit is the current target. *)
Definition sequenceInv (sv : bool) (index : Z) (pads : list Pos) (ia : Interaction) : Prop :=
  (0 <= index)%Z /\
  (sv = false -> (index < Z.of_nat (length pads))%Z) /\
  (sv = true -> index = Z.of_nat (length pads)) /\
  (enteredCorrectPad ia = true -> sv = false /\ lastHitIndex ia = index).

(** What a frame may do to a region: the layout stays, progress stays, and
    a gate that agrees with its puzzle still does. *)
Definition evolves (r r' : Region) : Prop :=
  layout r' = layout r /\ keepsProgress r r' /\ (gateSynced r -> gateSynced r').

(** The seeds of the current region that [updateSeeds] marks: not yet
    collected and overlapped by the player. *)
Definition pickedUp (pl : Rect) (sd : Seed) : bool :=
  negb (collected sd) && rectOverlap pl (tileRect (seed_pos sd)).

(** * Properties *)

(** ** Comparisons *)

Lemma Qle_bool_false (a b : Q) : Qle_bool a b = false <-> b < a.
Proof.
  split; intros H.
  - apply Qnot_le_lt. intros Hle. apply Qle_bool_iff in Hle. congruence.
  - destruct (Qle_bool a b) eqn:E; [|reflexivity].
    apply Qle_bool_iff in E. exfalso. apply (Qlt_not_le _ _ H E).
Qed.

(** Split on every comparison in sight and turn it into an inequality. *)
Ltac q_cases :=
  repeat match goal with
  | |- context [Qle_bool ?a ?b] =>
      let E := fresh "E" in
      destruct (Qle_bool a b) eqn:E;
      [apply Qle_bool_iff in E | apply Qle_bool_false in E]
  | H : context [Qle_bool ?a ?b] |- _ =>
      let E := fresh "E" in
      destruct (Qle_bool a b) eqn:E;
      [apply Qle_bool_iff in E | apply Qle_bool_false in E]
  end.

Ltac q_unfold :=
  unfold leq, geq, ltq, gtq, player_w, player_h, TILE, COLS, ROWS in *.

Lemma leq_spec (a b : Q) : leq a b = true <-> a <= b.
Proof. apply Qle_bool_iff. Qed.

Lemma ltq_spec (a b : Q) : ltq a b = true <-> a < b.
Proof.
  unfold ltq. rewrite negb_true_iff. apply Qle_bool_false.
Qed.

Lemma gtq_spec (a b : Q) : gtq a b = true <-> b < a.
Proof.
  unfold gtq. rewrite negb_true_iff. apply Qle_bool_false.
Qed.

Lemma geq_spec (a b : Q) : geq a b = true <-> b <= a.
Proof. apply Qle_bool_iff. Qed.

(** ** The overlap test *)

Lemma rectOverlap_spec (a b : Rect) :
  rectOverlap a b = true <->
  rx b < rx a + rw a /\ rx a < rx b + rw b /\ ry b < ry a + rh a /\ ry a < ry b + rh b.
Proof.
  unfold rectOverlap. q_unfold. q_cases; simpl; split; intros H;
    try discriminate; try reflexivity; try (repeat split; assumption);
    exfalso; destruct H as (H1 & H2 & H3 & H4); lra.
Qed.

Lemma rectOverlap_false (a b : Rect) :
  rectOverlap a b = false <->
  rx a + rw a <= rx b \/ rx b + rw b <= rx a \/ ry a + rh a <= ry b \/ ry b + rh b <= ry a.
Proof.
  unfold rectOverlap. q_unfold. q_cases; simpl; split; intros H;
    try discriminate; try reflexivity; auto;
    exfalso; destruct H as [H | [H | [H | H]]]; lra.
Qed.

Lemma rectOverlap_sym (a b : Rect) : rectOverlap a b = rectOverlap b a.
Proof.
  destruct (rectOverlap b a) eqn:E.
  - apply rectOverlap_spec in E. apply rectOverlap_spec. tauto.
  - apply rectOverlap_false in E. apply rectOverlap_false. tauto.
Qed.


(** Contact along an edge, or at a corner, is not overlap. *)
Lemma rectOverlap_touching (a b : Rect) :
  rx a + rw a == rx b \/ rx b + rw b == rx a \/
  ry a + rh a == ry b \/ ry b + rh b == ry a ->
  rectOverlap a b = false.
Proof.
  intros H. apply rectOverlap_false.
  destruct H as [H | [H | [H | H]]]; rewrite H; auto using Qle_refl.
Qed.



(** ** Puzzles: update after solved, snapshot and restore *)

(** C5.  For each of the four puzzles, [update] on a solved puzzle changes
    nothing, neither the puzzle nor [puzzlePadInteraction], and requests no
    sound, whatever the player position, the crates and the interaction
    signal are. *)
Theorem update_solved_noop (pl : Player) (interaction : bool) (r : Region)
    (store : gmap string Interaction) (p : Puzzle) :
  solved p = true ->
  update pl interaction r store p = (p, store, []).
Proof.
  intros Hs. destruct p as [sv pd | sv i pads key | sv | sv td];
    simpl in Hs; subst sv; reflexivity.
Qed.

Lemma update_solved_noop_witness :
  solved (TeleporterPuzzle true [mkTeleporter (at_tile 22 4) true]) = true /\
  update (mkPlayer (22 * TILE) (4 * TILE)) true emptyRegion ∅
         (TeleporterPuzzle true [mkTeleporter (at_tile 22 4) true])
  = (TeleporterPuzzle true [mkTeleporter (at_tile 22 4) true], ∅, []).
Proof.
  split; [reflexivity | apply update_solved_noop; reflexivity].
Defined.

Lemma asInt_inject_Z (z : Z) : asInt (JNum (inject_Z z)) = Ok z.
Proof.
  unfold asInt. rewrite Qfloor_Z.
  replace (Qeq_bool (inject_Z z) (inject_Z z)) with true; [reflexivity|].
  symmetry. apply Qeq_bool_iff. reflexivity.
Qed.




(** ** The crate puzzle *)

Lemma forallb_existsb_spec {A B} (f : A -> B -> bool) (l : list A) (m : list B) :
  forallb (fun a => existsb (f a) m) l = true <->
  Forall (fun a => Exists (fun b => f a b = true) m) l.
Proof.
  rewrite forallb_forall, Forall_forall. split; intros H a Ha.
  - apply list_elem_of_In in Ha. specialize (H a Ha).
    apply existsb_exists in H as (b & Hb & Hab).
    apply Exists_exists. exists b. split; [now apply list_elem_of_In | assumption].
  - apply list_elem_of_In in Ha. specialize (H a Ha).
    apply Exists_exists in H as (b & Hb & Hab).
    apply existsb_exists. exists b. split; [now apply list_elem_of_In | assumption].
Qed.

Lemma isSolved_spec (cs ts : list Rect) :
  isSolved cs ts = true <->
  length cs = length ts /\
  Forall (fun c => Exists (fun t => rectOverlap c t = true) ts) cs.
Proof.
  unfold isSolved. destruct (length cs =? length ts)%nat eqn:E; simpl.
  - apply Nat.eqb_eq in E. rewrite forallb_existsb_spec. tauto.
  - apply Nat.eqb_neq in E. split; [discriminate | tauto].
Qed.

(** C2 (as amended).  An update of the unsolved crate puzzle sets [solved]
    exactly when there are as many crates as target zones and every crate
    overlaps some target zone; the zones need not be distinct.  A solved
    puzzle stays solved. *)
Theorem crate_update_solved_iff (cs ts : list Rect) :
  (solved (crate_update cs ts false).1 = true <->
   length cs = length ts /\
   Forall (fun c => Exists (fun t => rectOverlap c t = true) ts) cs) /\
  solved (crate_update cs ts true).1 = true.
Proof.
  split; [|reflexivity].
  rewrite <- isSolved_spec. unfold crate_update.
  destruct (isSolved cs ts); simpl; split; congruence.
Qed.

(** C2, counterexample: the two crates of region 2, both pushed onto the
    first target zone and neither onto the second, solve the puzzle. *)
Lemma crate_update_same_target :
  let t1 := block 6 6 TILE TILE in
  let t2 := block 24 12 TILE TILE in
  let c1 := mkRect 165 194 TILE TILE in
  let c2 := mkRect 198 192 TILE TILE in
  rectOverlap c1 t1 = true /\ rectOverlap c2 t1 = true /\
  rectOverlap c1 t2 = false /\ rectOverlap c2 t2 = false /\
  rectOverlap c1 c2 = false /\
  crate_update [c1; c2] [t1; t2] false = (CratePuzzle true, [SfxPuzzleClear]).
Proof. vm_compute. repeat split. Qed.

(** ** The sequence puzzle *)

Section SequenceUpdate.
Variables (x y : Q) (index : Z) (pads : list Pos) (padKey : string).
Variable store : gmap string Interaction.

(** Touching a pad that is not the current target resets the progress. *)
Lemma sequence_wrong_pad_resets :
  touchedPad x y pads <> (-1)%Z -> touchedPad x y pads <> index ->
  sequence_update x y false index pads padKey store
  = (StrictSequencePuzzle false 0 pads padKey,
     <[padKey := mkInteraction false (-1)]> store, [SfxReset]).
Proof.
  intros H1 H2. unfold sequence_update.
  apply Z.eqb_neq in H1, H2. rewrite H1, H2. simpl.
  now rewrite orb_true_r.
Qed.

(** Touching the current target sets the entered flag. *)
Lemma sequence_current_pad_enters :
  touchedPad x y pads <> (-1)%Z -> touchedPad x y pads = index ->
  sequence_update x y false index pads padKey store
  = (StrictSequencePuzzle false index pads padKey,
     <[padKey := mkInteraction true index]> store, []).
Proof.
  intros H1 H2. unfold sequence_update.
  apply Z.eqb_neq in H1. rewrite H1. apply Z.eqb_eq in H2. rewrite H2.
  reflexivity.
Qed.

(** Touching no pad with the flag set: the index advances when the exit
    test against the pad last hit comes out false, and only then. *)
Lemma sequence_leave :
  touchedPad x y pads = (-1)%Z -> index <> (-1)%Z ->
  enteredCorrectPad (padInteraction store padKey) = true ->
  forall pad, at_index pads (lastHitIndex (padInteraction store padKey)) = Some pad ->
  sequence_update x y false index pads padKey store
  = if rectOverlapNoSize (mkRect x y TILE TILE) pad
    then (StrictSequencePuzzle false index pads padKey, store, [])
    else if (Z.of_nat (length pads) <=? index + 1)%Z
         then (StrictSequencePuzzle true (index + 1) pads padKey,
               <[padKey := mkInteraction false (-1)]> store, [SfxInteract; SfxPuzzleClear])
         else (StrictSequencePuzzle false (index + 1) pads padKey,
               <[padKey := mkInteraction false (-1)]> store, [SfxInteract]).
Proof.
  intros H1 H2 H3 pad H4. unfold sequence_update.
  assert (E : (-1 =? index)%Z = false) by (apply Z.eqb_neq; congruence).
  rewrite H1, H3, H4, E. change (-1 =? -1)%Z with true. cbn [negb andb orb].
  now destruct (rectOverlapNoSize (mkRect x y TILE TILE) pad).
Qed.
End SequenceUpdate.

(** In order, stepping onto each pad from above and off it upwards: solved. *)
Lemma walk_in_order_leaving_upwards :
  progress (walk visitFromAbove) = Some (true, 3%Z, mkInteraction false (-1)).
Proof. vm_compute. reflexivity. Qed.

(** Stepping onto pad 1 and off it while the index is 0 changes nothing. *)
Lemma walk_wrong_pad :
  progress (walk (route (833, 222) [stepDown; stepUp]))
  = Some (false, 0%Z, mkInteraction false (-1)).
Proof. vm_compute. reflexivity. Qed.

(** C6, the code at the failing input.  The player steps onto pad 0 of
    region 1 from below (frame 1, at (800, 287)) and off it downwards
    (frame 2, at (800, 290)): it touches no pad any more, yet the index stays
    0 and the entered flag stays set.  Visiting the three pads in order this
    way leaves the puzzle unsolved. *)
Theorem sequence_leave_downwards_no_advance :
  progress (walk (route (800, 290) [stepUp]))
  = Some (false, 0%Z, mkInteraction true 0) /\
  touchedPad 800 290 sequencePads = (-1)%Z /\
  progress (walk (route (800, 290) [stepUp; stepDown]))
  = Some (false, 0%Z, mkInteraction true 0) /\
  progress (walk visitFromBelow) = Some (false, 0%Z, mkInteraction false (-1)).
Proof. vm_compute. repeat split. Qed.

(** C9, the code at the failing input.  The player's rectangle
    [(800, 288, 32, 32)] touches pad 0 [(800, 256, 32, 32)] along the pad's
    lower edge only.  The overlap test on the two rectangles says no; the
    exit test of the sequence puzzle, which hands the test the bare pad,
    says yes, and the update of the frame in which the player has stepped
    back down from the pad to that position treats it as still on the pad. *)
Theorem exit_test_counts_adjacent_pad :
  let playerRect := mkRect 800 288 TILE TILE in
  let pad := at_tile 25 8 in
  py pad + TILE == ry playerRect /\
  rectOverlap playerRect (tileRect pad) = false /\
  rectOverlapNoSize playerRect pad = true /\
  route (800, 288) [stepUp; stepDown] = [(800, 285); (800, 288)] /\
  progress (walk (route (800, 288) [stepUp; stepDown]))
  = Some (false, 0%Z, mkInteraction true 0).
Proof. vm_compute. repeat split. Qed.

(** ** Movement and the gate *)

Lemma find_from_none {A} (pred : A -> bool) (l : list A) (i : nat) :
  Forall (fun a => pred a = false) l -> find_from pred i l = None.
Proof.
  intros H. revert i. induction H as [|a l Ha _ IH]; intros i; simpl; [reflexivity|].
  rewrite Ha. apply IH.
Qed.

Lemma canRectMoveTo_inside (rect : Rect) (r : Region) (e : option nat) :
  canRectMoveTo rect r e = true -> inside rect r.
Proof.
  unfold canRectMoveTo, inside, ltq, gtq. intros H.
  q_cases; simpl in H; try discriminate. repeat split; assumption.
Qed.

Lemma canPlayerMoveTo_closed_gate (r : Region) (gt : Gate) (nx ny : Q) :
  gate r = Some gt -> closed gt = true ->
  rectOverlap (mkRect nx ny player_w player_h) (gate_rect gt) = true ->
  canPlayerMoveTo r nx ny = false.
Proof.
  intros Hg Hc Ho. unfold canPlayerMoveTo. rewrite Hg, Hc, Ho. simpl.
  now destruct (existsb _ (obstacles r)).
Qed.

(** What [canPlayerMoveTo] lets through is at most one tile outside. *)
Lemma canPlayerMoveTo_allowance (r : Region) (nx ny : Q) :
  canPlayerMoveTo r nx ny = true ->
  - TILE <= nx /\ nx + player_w <= cols r * TILE + TILE /\
  - TILE <= ny /\ ny + player_h <= rows r * TILE + TILE.
Proof.
  unfold canPlayerMoveTo, ltq, gtq. intros H.
  destruct (existsb _ (obstacles r)); [discriminate|].
  destruct (match gate r with Some _ => _ | None => _ end); [discriminate|].
  q_cases; simpl in H; try discriminate. repeat split; assumption.
Qed.

Lemma pushed_crates_inside (r : Region) (cs : list Rect) (i : nat) (c : Rect) :
  canRectMoveTo c r (Some i) = true ->
  forall j c', <[i := c]> cs !! j = Some c' -> cs !! j = Some c' \/ inside c' r.
Proof.
  intros H j c' Hj. apply list_lookup_insert_Some in Hj as [(-> & -> & _) | (_ & Hj)].
  - right. eapply canRectMoveTo_inside, H.
  - now left.
Qed.

Lemma moveHorizontal_crates (r : Region) (x y d : Q) (j : nat) (c' : Rect) :
  (moveHorizontal r x y d).1 !! j = Some c' -> crates r !! j = Some c' \/ inside c' r.
Proof.
  unfold moveHorizontal. destruct (neq d 0); [|now left].
  destruct (find_from _ 0 (crates r)) as [[i c]|].
  - destruct (canRectMoveTo _ r (Some i)) eqn:E; [|now left].
    simpl. now apply pushed_crates_inside.
  - destruct (canPlayerMoveTo r (x + d) y); now left.
Qed.

Lemma moveVertical_crates (r : Region) (x y d : Q) (j : nat) (c' : Rect) :
  (moveVertical r x y d).1 !! j = Some c' -> crates r !! j = Some c' \/ inside c' r.
Proof.
  unfold moveVertical. destruct (neq d 0); [|now left].
  destruct (find_from _ 0 (crates r)) as [[i c]|].
  - destruct (canRectMoveTo _ r (Some i)) eqn:E; [|now left].
    simpl. now apply pushed_crates_inside.
  - destruct (canPlayerMoveTo r x (y + d)); now left.
Qed.

(** C1 (as amended).  In a region whose gate is closed, on each axis: when
    no crate overlaps the player's candidate rectangle and the candidate
    overlaps the gate, the player does not move on that axis and no crate
    moves.  When a crate overlaps the candidate the push rule decides and
    does not look at the gate; whatever it does, every crate it moves ends
    inside the pixel bounds of the region, so no crate gets past the gate. *)
Theorem closed_gate_rejects_without_crate (r : Region) (gt : Gate) (x y d : Q) :
  gate r = Some gt -> closed gt = true ->
  (Forall (fun c => rectOverlap (mkRect (x + d) y player_w player_h) c = false) (crates r) ->
   rectOverlap (mkRect (x + d) y player_w player_h) (gate_rect gt) = true ->
   moveHorizontal r x y d = (crates r, x)) /\
  (Forall (fun c => rectOverlap (mkRect x (y + d) player_w player_h) c = false) (crates r) ->
   rectOverlap (mkRect x (y + d) player_w player_h) (gate_rect gt) = true ->
   moveVertical r x y d = (crates r, y)) /\
  (forall j c', (moveHorizontal r x y d).1 !! j = Some c' ->
                crates r !! j = Some c' \/ inside c' r) /\
  (forall j c', (moveVertical r x y d).1 !! j = Some c' ->
                crates r !! j = Some c' \/ inside c' r).
Proof.
  intros Hg Hc. repeat split.
  - intros Hn Ho. unfold moveHorizontal. destruct (neq d 0); [|reflexivity].
    rewrite (find_from_none _ _ _ Hn).
    now rewrite (canPlayerMoveTo_closed_gate r gt _ _ Hg Hc Ho).
  - intros Hn Ho. unfold moveVertical. destruct (neq d 0); [|reflexivity].
    rewrite (find_from_none _ _ _ Hn).
    now rewrite (canPlayerMoveTo_closed_gate r gt _ _ Hg Hc Ho).
  - apply moveHorizontal_crates.
  - apply moveVertical_crates.
Qed.

Lemma closed_gate_rejects_witness :
  moveHorizontal entrance 926 100 3 = (crates entrance, 926).
Proof.
  apply (proj1 (closed_gate_rejects_without_crate entrance
                  (mkGate (mkRect (COLS * TILE - 8) 0 16 (ROWS * TILE)) true)
                  926 100 3 eq_refl eq_refl)).
  - repeat constructor.
  - reflexivity.
Defined.

(** C1, counterexample.  In a new game the player walks down to the row of
    the crate of region 0 and then right, pushing the crate along.  After
    266 frames to the right the crate is at x = 918, clear of the gate,
    which is closed; the next frame pushes it to x = 921, into the gate.
    The last line is the horizontal attempt of that frame. *)
Lemma crate_pushed_into_closed_gate :
  gateView (pushCrateToGate 266) = Some (true, [(mkRect 918 192 32 32, false)]) /\
  gateView (pushCrateToGate 267) = Some (true, [(mkRect 921 192 32 32, true)]) /\
  moveHorizontal (setCrates entrance [mkRect 918 192 32 32]) 894 192 3
  = ([mkRect 921 192 32 32], 897).
Proof. vm_compute. repeat split. Qed.

(** The gate passed.  Resumed in region 2, the player ends up inside the
    second crate and carries it along.  After 180 frames to the right the
    player is at x = 935 with the crate at x = 924.  In the next frame the
    candidate rectangle at x = 938 overlaps the crate and the closed gate;
    the crate can go to x = 927, so both move, and the player, now past the
    right boundary, is taken to region 3 with the crate puzzle unsolved. *)
Lemma closed_gate_passed_with_crate :
  ruinsView (carryCrateToGate 180) = Some (2%nat, mkPlayer 935 258, true) /\
  gateView (carryCrateToGate 180)
  = Some (true, [(mkRect 420 128 32 32, false); (mkRect 924 261 32 32, true)]) /\
  ruinsView (carryCrateToGate 181) = Some (3%nat, mkPlayer 2 258, true).
Proof. vm_compute. repeat split. Qed.

(** ** Region transition *)



Lemma regionEdges_lookup (n : nat) :
  (n < 5)%nat ->
  exists e, regionEdges !! n = Some e /\
    edge_up e = None /\ edge_down e = None /\
    (forall m, edge_right e = Some m -> (m < 5)%nat) /\
    (forall m, edge_left e = Some m -> (m < 5)%nat).
Proof.
  intros H. do 5 (destruct n as [|n]; [eexists; split; [reflexivity|];
    repeat split; cbn; intros; simplify_eq; lia|]). lia.
Qed.

Section SameSize.
Variables (rs : list Region) (region : Region).
Hypothesis Hlen : length rs = 5%nat.
Hypothesis Hdims : Forall (fun r => cols r = COLS /\ rows r = ROWS) rs.
Hypothesis Hcols : cols region = COLS.
Hypothesis Hrows : rows region = ROWS.

Lemma rs_lookup (n : nat) :
  (n < 5)%nat -> exists r', rs !! n = Some r' /\ cols r' = COLS /\ rows r' = ROWS.
Proof.
  intros H. destruct (lookup_lt_is_Some_2 rs n) as [r' Hr']; [lia|].
  exists r'. split; [assumption|].
  exact (Forall_lookup_1 _ _ _ _ Hdims Hr').
Qed.

(** Where the right-edge block puts the player. *)
Lemma switchRight_crossing (s : Switch) :
  (sw_region s < 5)%nat ->
  cols region * TILE < sw_x s + player_w ->
  exists e, regionEdges !! sw_region s = Some e /\
    match edge_right e with
    | None =>
        switchRight rs region s
        = Ok (mkSwitch (sw_region s) (cols region * TILE - player_w) (sw_y s) (sw_moved s))
    | Some next =>
        exists r', rs !! next = Some r' /\ (next < 5)%nat /\
          rows r' = ROWS /\
          switchRight rs region s
          = Ok (mkSwitch next 2
                  (clamp (round (sw_y s / (rows region * TILE) * rows r' * TILE)) 2
                         (rows r' * TILE - player_h - 2)) true)
    end.
Proof.
  intros Hn Hx. destruct (regionEdges_lookup _ Hn) as (e & He & _ & _ & Hright & _).
  exists e. split; [assumption|].
  apply gtq_spec in Hx. unfold switchRight, lookupRes. rewrite Hx, He. simpl.
  destruct (edge_right e) as [next|] eqn:E; [|reflexivity].
  destruct (rs_lookup next (Hright _ eq_refl)) as (r' & Hr' & _ & Hrr).
  exists r'. rewrite Hr'. simpl. auto using Hright.
Qed.

Lemma switchRight_ok (s : Switch) :
  (sw_region s < 5)%nat ->
  exists s', switchRight rs region s = Ok s' /\ (sw_region s' < 5)%nat /\
    sw_x s' + player_w <= COLS * TILE.
Proof.
  intros Hn. destruct (gtq (sw_x s + player_w) (cols region * TILE)) eqn:Hx.
  - apply gtq_spec in Hx.
    destruct (switchRight_crossing s Hn Hx) as (e & _ & H).
    destruct (edge_right e) as [next|].
    + destruct H as (r' & _ & Hnext & _ & ->). eexists. split; [reflexivity|].
      simpl. split; [assumption|]. q_unfold. lra.
    + rewrite H. eexists. split; [reflexivity|]. simpl. split; [assumption|].
      rewrite Hcols. q_unfold. lra.
  - unfold switchRight. rewrite Hx. exists s. split; [reflexivity|]. split; [assumption|].
    unfold gtq in Hx. apply negb_false_iff, Qle_bool_iff in Hx.
    now rewrite Hcols in Hx.
Qed.

Lemma switchLeft_ok (s : Switch) :
  (sw_region s < 5)%nat ->
  sw_x s + player_w <= COLS * TILE ->
  exists s', switchLeft rs region s = Ok s' /\ (sw_region s' < 5)%nat /\
    0 <= sw_x s' /\ sw_x s' + player_w <= COLS * TILE /\
    (ltq (sw_x s) 0 = false -> s' = s).
Proof.
  intros Hn Hx. unfold switchLeft.
  destruct (ltq (sw_x s) 0) eqn:Hl.
  - destruct (regionEdges_lookup _ Hn) as (e & He & _ & _ & _ & Hleft).
    unfold lookupRes. rewrite He. simpl.
    destruct (edge_left e) as [next|] eqn:E.
    + destruct (rs_lookup next (Hleft _ eq_refl)) as (r' & Hr' & Hrc & Hrr).
      rewrite Hr'. simpl. eexists. split; [reflexivity|]. simpl.
      rewrite Hrc. split; [eauto|]. q_unfold. repeat split; try lra; try discriminate.
    + eexists. split; [reflexivity|]. simpl. split; [assumption|].
      q_unfold. repeat split; try lra; try discriminate.
  - exists s. split; [reflexivity|]. split; [assumption|].
    unfold ltq in Hl. apply negb_false_iff, Qle_bool_iff in Hl. auto.
Qed.

Lemma switchTop_ok (s : Switch) :
  (sw_region s < 5)%nat ->
  exists s', switchTop rs region s = Ok s' /\ sw_region s' = sw_region s /\
    sw_x s' = sw_x s /\ 0 <= sw_y s' /\ (ltq (sw_y s) 0 = false -> s' = s).
Proof.
  intros Hn. unfold switchTop.
  destruct (ltq (sw_y s) 0) eqn:Hl.
  - destruct (regionEdges_lookup _ Hn) as (e & He & Hup & _).
    unfold lookupRes. rewrite He. simpl. rewrite Hup.
    eexists. split; [reflexivity|]. simpl. repeat split; try lra; try discriminate.
  - exists s. split; [reflexivity|].
    unfold ltq in Hl. apply negb_false_iff, Qle_bool_iff in Hl. auto.
Qed.

Lemma switchBottom_ok (s : Switch) :
  (sw_region s < 5)%nat ->
  0 <= sw_y s ->
  exists s', switchBottom rs region s = Ok s' /\ sw_region s' = sw_region s /\
    sw_x s' = sw_x s /\ 0 <= sw_y s' /\ sw_y s' + player_h <= ROWS * TILE /\
    (gtq (sw_y s + player_h) (ROWS * TILE) = false -> s' = s).
Proof.
  intros Hn Hy. unfold switchBottom. rewrite Hrows.
  destruct (gtq (sw_y s + player_h) (ROWS * TILE)) eqn:Hl.
  - destruct (regionEdges_lookup _ Hn) as (e & He & _ & Hdown & _).
    unfold lookupRes. rewrite He. simpl. rewrite Hdown.
    eexists. split; [reflexivity|]. simpl. q_unfold. repeat split; try lra; try discriminate.
  - exists s. split; [reflexivity|].
    unfold gtq in Hl. apply negb_false_iff, Qle_bool_iff in Hl. auto.
Qed.
End SameSize.

Lemma wf_current (g : Game) :
  wf g -> exists r, regions g !! currentRegion g = Some r /\ cols r = COLS /\ rows r = ROWS.
Proof.
  intros (Hlen & Hcur & Hdims). now apply rs_lookup.
Qed.

Lemma wf_setRegion (g : Game) (r r' : Region) :
  wf g -> regions g !! currentRegion g = Some r ->
  cols r' = cols r -> rows r' = rows r ->
  length (setRegion g r') = 5%nat /\
  Forall (fun r => cols r = COLS /\ rows r = ROWS) (setRegion g r').
Proof.
  intros (Hlen & Hcur & Hdims) Hr Hc Hw. unfold setRegion. split.
  - now rewrite length_insert.
  - apply Forall_insert; [assumption|].
    rewrite Hc, Hw. exact (Forall_lookup_1 _ _ _ _ Hdims Hr).
Qed.



(** ** Containment at the end of a frame *)

Lemma movePlayer_wf (dx dy : Q) (g : Game) :
  wf g -> exists g', movePlayer dx dy g = Ok g' /\ wf g' /\ paused g' = paused g.
Proof.
  intros Hwf. destruct (wf_current g Hwf) as (r & Hr & _).
  unfold movePlayer, currentRegionOf. rewrite Hr. cbn [bind].
  destruct (moveHorizontal r _ _ dx) as [c1 x1].
  destruct (moveVertical _ x1 _ dy) as [c2 y1].
  eexists. split; [reflexivity|]. split; [|reflexivity].
  destruct (wf_setRegion g r (setCrates (setCrates r c1) c2) Hwf Hr eq_refl eq_refl).
  split; [assumption|]. split; [apply Hwf | assumption].
Qed.

Lemma updateSeeds_wf (d : Q) (g : Game) :
  wf g -> exists g', updateSeeds d g = Ok g' /\ wf g' /\ paused g' = paused g.
Proof.
  intros Hwf. destruct (wf_current g Hwf) as (r & Hr & _).
  unfold updateSeeds, currentRegionOf. rewrite Hr. cbn [bind].
  destruct (collectSeeds _ d (seeds r)) as [ss n].
  eexists. split; [reflexivity|]. split; [|reflexivity].
  destruct (wf_setRegion g r (setSeeds r ss) Hwf Hr eq_refl eq_refl).
  split; [assumption|]. split; [apply Hwf | assumption].
Qed.

Lemma updatePuzzle_wf (interactDown : bool) (g : Game) :
  wf g -> exists g', updatePuzzle interactDown g = Ok g' /\ wf g' /\ paused g' = paused g.
Proof.
  intros Hwf. destruct (wf_current g Hwf) as (r & Hr & _).
  unfold updatePuzzle, currentRegionOf. rewrite Hr. cbn [bind].
  destruct (puzzle r) as [p|]; [|now exists g].
  destruct (update _ _ r _ p) as [[p' store] ev].
  eexists. split; [reflexivity|]. split; [|reflexivity].
  destruct (wf_setRegion g r (setPuzzleAndGate r p') Hwf Hr eq_refl eq_refl).
  split; [assumption|]. split; [apply Hwf | assumption].
Qed.

Lemma checkRegionSwitch_inside (g : Game) :
  wf g ->
  exists g' r', checkRegionSwitch g = Ok g' /\ wf g' /\
    regions g' !! currentRegion g' = Some r' /\ inside (playerRect (player g')) r'.
Proof.
  intros Hwf. pose proof Hwf as (Hlen & Hcur & Hdims).
  destruct (wf_current g Hwf) as (region & Hreg & Hcols & Hrows).
  unfold checkRegionSwitch, currentRegionOf. rewrite Hreg. cbn [bind].
  set (s0 := mkSwitch _ _ _ _).
  destruct (switchRight_ok (regions g) region Hlen Hdims Hcols s0 Hcur)
    as (s1 & H1 & Hn1 & Hx1).
  rewrite H1. cbn [bind].
  destruct (switchLeft_ok (regions g) region Hlen Hdims s1 Hn1 Hx1)
    as (s2 & H2 & Hn2 & Hx2 & Hx2' & _).
  rewrite H2. cbn [bind].
  destruct (switchTop_ok (regions g) region s2 Hn2) as (s3 & H3 & Hr3 & Hx3 & Hy3 & _).
  rewrite H3. cbn [bind].
  destruct (switchBottom_ok (regions g) region Hrows s3) as (s4 & H4 & Hr4 & Hx4 & Hy4 & Hy4' & _);
    [now rewrite Hr3 | assumption |].
  rewrite H4. cbn [bind].
  assert (Hn4 : (sw_region s4 < 5)%nat) by now rewrite Hr4, Hr3.
  destruct (rs_lookup (regions g) Hlen Hdims _ Hn4) as (r' & Hr' & Hrc & Hrr).
  eexists. exists r'. split; [reflexivity|]. simpl.
  split; [now repeat split|]. split; [assumption|].
  unfold inside. simpl. rewrite Hrc, Hrr, Hx4, Hx3. auto.
Qed.

Lemma checkWinCondition_same (g : Game) :
  currentRegion (checkWinCondition g) = currentRegion g /\
  player (checkWinCondition g) = player g /\
  regions (checkWinCondition g) = regions g.
Proof.
  unfold checkWinCondition.
  destruct (negb _); [auto|]. destruct (negb _); [auto|].
  destruct (rectOverlap _ _); auto.
Qed.

Lemma tick_wf (i : Input) (g : Game) :
  wf g -> exists g', tick i g = Ok g' /\ wf g'.
Proof.
  intros Hwf. destruct (paused g) eqn:Hp.
  - exists g. unfold tick. now rewrite Hp.
  - unfold tick. rewrite Hp. destruct (intent i) as [dx dy].
    destruct (movePlayer_wf dx dy g Hwf) as (g1 & H1 & Hwf1 & _). rewrite H1. cbn [bind].
    assert (Hwf2 : wf (addTime (dt i) g1)) by exact Hwf1.
    destruct (updateSeeds_wf (dt i) _ Hwf2) as (g3 & H3 & Hwf3 & _). rewrite H3. cbn [bind].
    destruct (updatePuzzle_wf (key_interact i) _ Hwf3) as (g4 & H4 & Hwf4 & _).
    rewrite H4. cbn [bind].
    destruct (checkRegionSwitch_inside g4 Hwf4) as (g5 & r' & H5 & Hwf5 & _).
    rewrite H5. cbn [bind].
    destruct (checkWinCondition_same g5) as (Ec & _ & Ers).
    eexists. split; [reflexivity|]. unfold wf. now rewrite Ec, Ers.
Qed.

(** No frame throws: from a well-formed session every list of inputs runs
    to its end. *)
Lemma run_wf (inputs : list Input) (g : Game) :
  wf g -> exists g', run inputs g = Ok g' /\ wf g'.
Proof.
  revert g. induction inputs as [|i inputs IH]; intros g Hwf; simpl.
  - now exists g.
  - destruct (tick_wf i g Hwf) as (g1 & H1 & Hwf1). rewrite H1. cbn [bind].
    now apply IH.
Qed.

Lemma generateContent_wf (g : Game) :
  length (regions g) = 5%nat -> (currentRegion g < 5)%nat ->
  Forall (fun r => cols r = COLS /\ rows r = ROWS) (regions g) ->
  wf (generateContent g).
Proof.
  intros Hlen Hcur Hdims. destruct g as [cur pl tm fl pa ip rs store ev]. simpl in *.
  destruct rs as [|r0 [|r1 [|r2 [|r3 [|r4 [|]]]]]]; try discriminate.
  repeat match goal with
         | H : Forall _ (_ :: _) |- _ => apply Forall_cons in H as [[? ?] H]
         end.
  unfold generateContent. cbn -[createStrictSequencePuzzle].
  destruct (createStrictSequencePuzzle _ _ _) as [p store']. cbn.
  split; [reflexivity|]. split; [assumption|].
  repeat constructor; assumption.
Qed.

Lemma newGame_wf : exists g, newGame = Ok g /\ wf g.
Proof.
  eexists. split; [reflexivity|].
  split; [reflexivity|]. split; [simpl; lia|]. repeat constructor.
Qed.

(** C10.  A frame of a session that is not paused runs to its end and
    leaves the player's rectangle inside the pixel bounds of the region that
    is then current: [0 <= x], [x + w <= cols * TILE], [0 <= y],
    [y + h <= rows * TILE].  ([canPlayerMoveTo] lets the movement stray up
    to one tile outside before that, see [canPlayerMoveTo_allowance].) *)
Theorem tick_player_inside (i : Input) (g : Game) :
  wf g -> paused g = false ->
  exists g' r', tick i g = Ok g' /\ wf g' /\
    regions g' !! currentRegion g' = Some r' /\
    inside (playerRect (player g')) r'.
Proof.
  intros Hwf Hp. unfold tick. rewrite Hp. destruct (intent i) as [dx dy].
  destruct (movePlayer_wf dx dy g Hwf) as (g1 & H1 & Hwf1 & _). rewrite H1. cbn [bind].
  assert (Hwf2 : wf (addTime (dt i) g1)) by exact Hwf1.
  destruct (updateSeeds_wf (dt i) _ Hwf2) as (g3 & H3 & Hwf3 & _). rewrite H3. cbn [bind].
  destruct (updatePuzzle_wf (key_interact i) _ Hwf3) as (g4 & H4 & Hwf4 & _).
  rewrite H4. cbn [bind].
  destruct (checkRegionSwitch_inside g4 Hwf4) as (g5 & r' & H5 & Hwf5 & Hr' & Hin).
  rewrite H5. cbn [bind].
  destruct (checkWinCondition_same g5) as (Ec & Epl & Ers).
  exists (checkWinCondition g5), r'. split; [reflexivity|].
  unfold wf. rewrite Ec, Epl, Ers. auto.
Qed.

(** Hence the player is inside the current region after every frame of a
    game played from its start. *)
Lemma tick_contained (i : Input) (g : Game) :
  wf g -> contained g -> exists g', tick i g = Ok g' /\ wf g' /\ contained g'.
Proof.
  intros Hwf Hin. destruct (paused g) eqn:Hp.
  - exists g. unfold tick. rewrite Hp. auto.
  - destruct (tick_player_inside i g Hwf Hp) as (g' & r' & H & Hwf' & Hr' & Hin').
    exists g'. split; [assumption|]. split; [assumption|]. now exists r'.
Qed.

Lemma play_contained (inputs : list Input) :
  exists g, (let! g0 := newGame in run inputs g0) = Ok g /\ wf g /\ contained g.
Proof.
  destruct newGame_wf as (g0 & H0 & Hwf0). rewrite H0. cbn [bind].
  assert (Hin0 : contained g0).
  { unfold newGame in H0. vm_compute in H0. injection H0 as <-.
    eexists. split; [reflexivity|]. unfold inside. simpl. q_unfold. lra. }
  clear H0. revert g0 Hwf0 Hin0.
  induction inputs as [|i inputs IH]; intros g Hwf Hin; simpl.
  - now exists g.
  - destruct (tick_contained i g Hwf Hin) as (g1 & H1 & Hwf1 & Hin1).
    rewrite H1. cbn [bind]. now apply IH.
Qed.

Lemma tick_player_inside_witness :
  exists g' r',
    tick holdRight (generateContent pageLoad) = Ok g' /\ wf g' /\
    regions g' !! currentRegion g' = Some r' /\
    inside (playerRect (player g')) r'.
Proof.
  apply (tick_player_inside holdRight (generateContent pageLoad)).
  - split; [reflexivity|]. split; [simpl; lia|]. repeat constructor.
  - reflexivity.
Defined.

(** ** Loading *)

(** A seeds column that is not the text of a JSON array makes [loadGame]
    answer [false], with the region, the position and the time of the row
    already in place and the regions untouched. *)
Lemma loadGame_seeds_malformed (st : Snapshot) (g : Game) :
  (forall l, st_seeds st <> Json (JArr l)) ->
  exists g', loadGame (Saved st) g = Returned false g' /\
    whereAndWhen g' = (st_region st, mkPlayer (st_pos_x st) (st_pos_y st), st_game_time st) /\
    regions g' = regions g.
Proof.
  intros H. unfold loadGame, restoreComponents.
  destruct (st_seeds st) as [| |[| | | | |l|]] eqn:E;
    try (eexists; split; [reflexivity|]; split; reflexivity).
  now destruct (H l).
Qed.

(** When [loadGame] answers [false], [initGame] sets the region, the
    position and the time of a new game. *)
Lemma initGame_failed_load_resets (resp : Response) (g g2 : Game) :
  loadGame resp (generateContent g) = Returned false g2 ->
  exists g', initGame false resp g = Ok g' /\
    whereAndWhen g' = (0%nat, mkPlayer (TILE * 3) (TILE * 3), 0) /\
    regions g' = imap syncGate (regions g2).
Proof.
  intros H. unfold initGame. rewrite H. cbn [bind].
  eexists. split; [reflexivity|]. split; reflexivity.
Qed.

(** C4, the code at the failing input.  The server answers with a row whose
    seeds column is [[[true]]] and whose crates column is [NULL].
    [loadGame] answers [false], and [initGame] starts in region 0 at the
    start position with the clock at 0, as it does without a save; but the
    seed of region 0, restored before the crates column was looked at, is
    still marked collected, so what a save would record of the session
    differs from a new game. *)
Theorem failed_load_leaves_seed_collected :
  loadAnswer (loadGame (Saved brokenSave) (generateContent pageLoad)) = Some false /\
  after whereAndWhen (initGame false (Saved brokenSave) pageLoad)
  = after whereAndWhen (initGame false NoSave pageLoad) /\
  after collectedFlags (initGame false NoSave pageLoad)
  = Some [[false]; [false]; [false]; [false; false]; []] /\
  after collectedFlags (initGame false (Saved brokenSave) pageLoad)
  = Some [[true]; [false]; [false]; [false; false]; []] /\
  after sessionState (initGame false (Saved brokenSave) pageLoad)
  <> after sessionState (initGame false NoSave pageLoad).
Proof. vm_compute. repeat split. discriminate. Qed.

(** * Further properties of the code *)

(** ** Pushing crates *)

Lemma find_from_Some {A} (pred : A -> bool) (l : list A) (k i : nat) (a : A) :
  find_from pred k l = Some (i, a) ->
  exists j, i = (k + j)%nat /\ l !! j = Some a /\ pred a = true.
Proof.
  revert k. induction l as [|b l IH]; intros k H; simpl in H; [discriminate|].
  destruct (pred b) eqn:E.
  - injection H as <- <-. exists 0%nat. split; [lia|]. auto.
  - destruct (IH _ H) as (j & -> & Hj & Hp). exists (S j). split; [lia|]. auto.
Qed.

Lemma exists_other_false {A} (pred : A -> bool) (l : list A) (i k : nat) :
  exists_other pred (Some i) k l = false ->
  forall j a, l !! j = Some a -> (k + j)%nat <> i -> pred a = false.
Proof.
  revert k. induction l as [|b l IH]; intros k H j a Hj Hne; [discriminate|].
  simpl in H. apply orb_false_iff in H as [H1 H2].
  destruct j as [|j]; simpl in Hj.
  - injection Hj as ->. rewrite bool_decide_eq_false_2 in H1 by (intros [= <-]; lia).
    exact H1.
  - apply (IH (S k) H2 j a Hj). lia.
Qed.

Lemma existsb_false_Forall {A} (pred : A -> bool) (l : list A) :
  existsb pred l = false -> Forall (fun a => pred a = false) l.
Proof.
  induction l as [|a l IH]; simpl; intros H; [constructor|].
  apply orb_false_iff in H as [H1 H2]. constructor; auto.
Qed.

(** What [canRectMoveTo] grants: inside the bounds, clear of every
    obstacle and of every crate but the excluded one. *)
Lemma canRectMoveTo_clear (rect : Rect) (r : Region) (i : nat) :
  canRectMoveTo rect r (Some i) = true ->
  inside rect r /\
  Forall (fun o => rectOverlap rect o = false) (obstacles r) /\
  (forall j c, crates r !! j = Some c -> j <> i -> rectOverlap rect c = false).
Proof.
  intros H. split; [eapply canRectMoveTo_inside, H|].
  unfold canRectMoveTo in H.
  destruct (_ || _ || _ || _); [discriminate|].
  destruct (existsb _ (obstacles r)) eqn:Eo; [discriminate|].
  destruct (exists_other _ _ 0 (crates r)) eqn:Ec; [discriminate|].
  split; [now apply existsb_false_Forall|].
  intros j c Hj Hne. exact (exists_other_false _ _ _ _ Ec j c Hj Hne).
Qed.

(** X1.  On each axis [movePlayer] either leaves every crate where it is,
    the player staying or moving by the requested delta, or moves exactly
    one crate, one that overlaps the player's candidate rectangle, by the
    delta and the player with it: a crate never moves without the player,
    never by another amount, and never two at once. *)
Theorem push_moves_crate_with_player (r : Region) (x y d : Q) :
  ((moveHorizontal r x y d).1 = crates r /\
   ((moveHorizontal r x y d).2 = x \/ (moveHorizontal r x y d).2 = x + d) \/
   exists i c, crates r !! i = Some c /\
     rectOverlap (mkRect (x + d) y player_w player_h) c = true /\
     moveHorizontal r x y d
     = (<[i := mkRect (rx c + d) (ry c) (rw c) (rh c)]> (crates r), x + d)) /\
  ((moveVertical r x y d).1 = crates r /\
   ((moveVertical r x y d).2 = y \/ (moveVertical r x y d).2 = y + d) \/
   exists i c, crates r !! i = Some c /\
     rectOverlap (mkRect x (y + d) player_w player_h) c = true /\
     moveVertical r x y d
     = (<[i := mkRect (rx c) (ry c + d) (rw c) (rh c)]> (crates r), y + d)).
Proof.
  split.
  - unfold moveHorizontal. destruct (neq d 0); [|left; auto].
    destruct (find_from _ 0 (crates r)) as [[i c]|] eqn:E.
    + apply find_from_Some in E as (j & -> & Hj & Hp).
      destruct (canRectMoveTo _ r _); [|left; auto].
      right. exists j, c. auto.
    + destruct (canPlayerMoveTo r (x + d) y); left; auto.
  - unfold moveVertical. destruct (neq d 0); [|left; auto].
    destruct (find_from _ 0 (crates r)) as [[i c]|] eqn:E.
    + apply find_from_Some in E as (j & -> & Hj & Hp).
      destruct (canRectMoveTo _ r _); [|left; auto].
      right. exists j, c. auto.
    + destruct (canPlayerMoveTo r x (y + d)); left; auto.
Qed.

Lemma cratesPlaced_push (r : Region) (i : nat) (c c' : Rect) :
  cratesPlaced r -> crates r !! i = Some c ->
  canRectMoveTo c' r (Some i) = true ->
  cratesPlaced (setCrates r (<[i := c']> (crates r))).
Proof.
  intros [Hin Hpair] Hi Hcan.
  destruct (canRectMoveTo_clear _ _ _ Hcan) as (Hc1 & Hc2 & Hc3).
  split; simpl.
  - intros j cj Hj. apply list_lookup_insert_Some in Hj as [(<- & <- & _) | (_ & Hj)].
    + split; assumption.
    + exact (Hin j cj Hj).
  - intros j k cj ck Hne Hj Hk.
    apply list_lookup_insert_Some in Hj as [(<- & <- & _) | (Hij & Hj)];
      apply list_lookup_insert_Some in Hk as [(<- & <- & _) | (Hik & Hk)].
    + congruence.
    + apply (Hc3 k ck Hk). congruence.
    + rewrite rectOverlap_sym. apply (Hc3 j cj Hj). congruence.
    + exact (Hpair j k cj ck Hne Hj Hk).
Qed.

Lemma moveHorizontal_placed (r : Region) (x y d : Q) :
  cratesPlaced r -> cratesPlaced (setCrates r (moveHorizontal r x y d).1).
Proof.
  intros H. unfold moveHorizontal.
  assert (Hsame : cratesPlaced (setCrates r (crates r))) by (destruct r; exact H).
  destruct (neq d 0); [|exact Hsame].
  destruct (find_from _ 0 (crates r)) as [[i c]|] eqn:E.
  - apply find_from_Some in E as (j & -> & Hj & _).
    destruct (canRectMoveTo _ r _) eqn:Hc; [|exact Hsame].
    exact (cratesPlaced_push r _ c _ H Hj Hc).
  - destruct (canPlayerMoveTo r (x + d) y); exact Hsame.
Qed.

Lemma moveVertical_placed (r : Region) (x y d : Q) :
  cratesPlaced r -> cratesPlaced (setCrates r (moveVertical r x y d).1).
Proof.
  intros H. unfold moveVertical.
  assert (Hsame : cratesPlaced (setCrates r (crates r))) by (destruct r; exact H).
  destruct (neq d 0); [|exact Hsame].
  destruct (find_from _ 0 (crates r)) as [[i c]|] eqn:E.
  - apply find_from_Some in E as (j & -> & Hj & _).
    destruct (canRectMoveTo _ r _) eqn:Hc; [|exact Hsame].
    exact (cratesPlaced_push r _ c _ H Hj Hc).
  - destruct (canPlayerMoveTo r x (y + d)); exact Hsame.
Qed.

(** X2.  [movePlayer] keeps the crates of the current region well placed:
    if every crate is inside the region, clear of the obstacles and of the
    other crates before the move, so it is after it, whatever the
    displacement asked for. *)
Theorem movePlayer_keeps_crates_placed (dx dy : Q) (g : Game) (r : Region) :
  regions g !! currentRegion g = Some r -> cratesPlaced r ->
  exists g' r', movePlayer dx dy g = Ok g' /\
    regions g' !! currentRegion g' = Some r' /\ cratesPlaced r'.
Proof.
  intros Hr Hp. unfold movePlayer, currentRegionOf. rewrite Hr. cbn [bind].
  pose proof (moveHorizontal_placed r (player_x (player g)) (player_y (player g)) dx Hp) as H1.
  destruct (moveHorizontal r _ _ dx) as [c1 x1]. simpl in H1.
  pose proof (moveVertical_placed _ x1 (player_y (player g)) dy H1) as H2.
  destruct (moveVertical _ x1 _ dy) as [c2 y1]. simpl in H2.
  eexists. eexists. split; [reflexivity|]. simpl. split; [|exact H2].
  unfold setRegion. apply list_lookup_insert_eq. now apply lookup_lt_Some in Hr.
Qed.

Lemma movePlayer_keeps_crates_placed_witness :
  exists g' r', movePlayer 3 0 (generateContent pageLoad) = Ok g' /\
    regions g' !! currentRegion g' = Some r' /\ cratesPlaced r'.
Proof.
  apply (movePlayer_keeps_crates_placed 3 0 (generateContent pageLoad) entrance).
  - reflexivity.
  - split.
    + intros [|i] c H; [|discriminate]. injection H as <-.
      split; [|repeat constructor]. unfold inside. simpl. q_unfold. lra.
    + intros [|i] [|j] ci cj Hne Hi Hj; try discriminate. congruence.
Defined.

(** ** Collecting seeds *)

Lemma collectSeeds_spec (pl : Rect) (d : Q) (l : list Seed) :
  map seed_pos (collectSeeds pl d l).1 = map seed_pos l /\
  map collected (collectSeeds pl d l).1
  = map (fun sd => collected sd || rectOverlap pl (tileRect (seed_pos sd))) l /\
  (collectSeeds pl d l).2 = length (List.filter (pickedUp pl) l).
Proof.
  induction l as [|sd l (IH1 & IH2 & IH3)]; [auto|].
  simpl. destruct (collectSeeds pl d l) as [l' n]. simpl in *.
  unfold pickedUp at 1.
  destruct (collected sd) eqn:Ec; simpl.
  - rewrite IH1, IH2. auto.
  - destruct (rectOverlap pl (tileRect (seed_pos sd))); simpl; rewrite IH1, IH2; auto.
Qed.

(** X3.  [updateSeeds] marks as collected exactly the seeds of the current
    region that were not collected and that the player overlaps, unmarks
    none, moves none, and requests the seed sound and a save once for each
    seed it marks. *)
Theorem updateSeeds_marks_overlapped (d : Q) (g : Game) (r : Region) :
  regions g !! currentRegion g = Some r ->
  exists g' r', updateSeeds d g = Ok g' /\
    regions g' !! currentRegion g' = Some r' /\
    map seed_pos (seeds r') = map seed_pos (seeds r) /\
    map collected (seeds r')
    = map (fun sd => collected sd
                     || rectOverlap (playerRect (player g)) (tileRect (seed_pos sd)))
          (seeds r) /\
    events g'
    = events g ++ concat (replicate (length (List.filter (pickedUp (playerRect (player g)))
                                                         (seeds r)))
                                    [SfxSeed; SaveGame]).
Proof.
  intros Hr. unfold updateSeeds, currentRegionOf. rewrite Hr. cbn [bind].
  destruct (collectSeeds_spec (playerRect (player g)) d (seeds r)) as (H1 & H2 & H3).
  destruct (collectSeeds _ d (seeds r)) as [ss n]. simpl in *.
  eexists. exists (setSeeds r ss). split; [reflexivity|]. simpl.
  split; [|subst n; auto].
  unfold setRegion. apply list_lookup_insert_eq. now apply lookup_lt_Some in Hr.
Qed.

Lemma updateSeeds_marks_overlapped_witness :
  exists g' r', updateSeeds 16 (generateContent pageLoad) = Ok g' /\
    regions g' !! currentRegion g' = Some r' /\
    map seed_pos (seeds r') = map seed_pos (seeds entrance) /\
    map collected (seeds r') = [false] /\
    events g' = [].
Proof.
  destruct (updateSeeds_marks_overlapped 16 (generateContent pageLoad) entrance eq_refl)
    as (g' & r' & H1 & H2 & H3 & H4 & H5).
  exists g', r'. repeat split; assumption.
Defined.

(** ** What a play keeps *)

Lemma keepsProgress_refl (r : Region) : keepsProgress r r.
Proof.
  split.
  - apply Forall_Forall2_diag, Forall_forall. auto.
  - destruct (puzzle r); auto.
Qed.

Lemma keepsProgress_same (r r' : Region) :
  seeds r' = seeds r -> puzzle r' = puzzle r -> keepsProgress r r'.
Proof.
  intros Hs Hp. unfold keepsProgress. rewrite Hs, Hp. apply keepsProgress_refl.
Qed.

Lemma evolves_refl (r : Region) : evolves r r.
Proof.
  split; [reflexivity|]. split; [apply keepsProgress_refl | auto].
Qed.

Lemma evolves_trans (r1 r2 r3 : Region) :
  evolves r1 r2 -> evolves r2 r3 -> evolves r1 r3.
Proof.
  intros (L1 & [S1 P1] & G1) (L2 & [S2 P2] & G2).
  split; [congruence|]. split; [|auto]. split.
  - eapply Forall2_trans; [|exact S1|exact S2]. simpl. auto.
  - destruct (puzzle r1), (puzzle r2), (puzzle r3); simpl in *; auto; contradiction.
Qed.

Lemma Forall2_evolves_refl (rs : list Region) : Forall2 evolves rs rs.
Proof.
  apply Forall_Forall2_diag, Forall_forall. intros. apply evolves_refl.
Qed.

Lemma Forall2_evolves_insert (rs : list Region) (i : nat) (r r' : Region) :
  rs !! i = Some r -> evolves r r' -> Forall2 evolves rs (<[i := r']> rs).
Proof.
  revert i. induction rs as [|r0 rs IH]; intros [|i] H He; try discriminate; simpl in *.
  - injection H as ->. constructor; [assumption | apply Forall2_evolves_refl].
  - constructor; [apply evolves_refl | now apply IH].
Qed.

Lemma Forall2_evolves_trans (rs1 rs2 rs3 : list Region) :
  Forall2 evolves rs1 rs2 -> Forall2 evolves rs2 rs3 -> Forall2 evolves rs1 rs3.
Proof.
  intros H1 H2. eapply Forall2_trans; [|exact H1|exact H2].
  simpl. apply evolves_trans.
Qed.

Lemma sizes_insert (cs : list Rect) (i : nat) (c c' : Rect) :
  cs !! i = Some c -> rw c' = rw c -> rh c' = rh c ->
  map (fun c => mkRect 0 0 (rw c) (rh c)) (<[i := c']> cs)
  = map (fun c => mkRect 0 0 (rw c) (rh c)) cs.
Proof.
  intros H Hw Hh. change (map ?f ?l) with (f <$> l).
  rewrite list_fmap_insert, Hw, Hh. apply list_insert_id.
  rewrite list_lookup_fmap, H. reflexivity.
Qed.

Lemma moveHorizontal_sizes (r : Region) (x y d : Q) :
  map (fun c => mkRect 0 0 (rw c) (rh c)) (moveHorizontal r x y d).1
  = map (fun c => mkRect 0 0 (rw c) (rh c)) (crates r).
Proof.
  unfold moveHorizontal. destruct (neq d 0); [|reflexivity].
  destruct (find_from _ 0 (crates r)) as [[i c]|] eqn:E.
  - apply find_from_Some in E as (j & -> & Hj & _).
    destruct (canRectMoveTo _ r _); [|reflexivity].
    simpl. now apply (sizes_insert _ _ c).
  - now destruct (canPlayerMoveTo r (x + d) y).
Qed.

Lemma moveVertical_sizes (r : Region) (x y d : Q) :
  map (fun c => mkRect 0 0 (rw c) (rh c)) (moveVertical r x y d).1
  = map (fun c => mkRect 0 0 (rw c) (rh c)) (crates r).
Proof.
  unfold moveVertical. destruct (neq d 0); [|reflexivity].
  destruct (find_from _ 0 (crates r)) as [[i c]|] eqn:E.
  - apply find_from_Some in E as (j & -> & Hj & _).
    destruct (canRectMoveTo _ r _); [|reflexivity].
    simpl. now apply (sizes_insert _ _ c).
  - now destruct (canPlayerMoveTo r x (y + d)).
Qed.

Lemma movePlayer_evolves (dx dy : Q) (g g' : Game) :
  movePlayer dx dy g = Ok g' -> Forall2 evolves (regions g) (regions g').
Proof.
  unfold movePlayer, currentRegionOf.
  destruct (regions g !! currentRegion g) as [r|] eqn:Hr; [|discriminate]. cbn [bind].
  pose proof (moveHorizontal_sizes r (player_x (player g)) (player_y (player g)) dx) as H1.
  destruct (moveHorizontal r _ _ dx) as [c1 x1]. simpl in H1.
  pose proof (moveVertical_sizes (setCrates r c1) x1 (player_y (player g)) dy) as H2.
  destruct (moveVertical _ x1 _ dy) as [c2 y1]. simpl in H2.
  intros [= <-]. simpl.
  apply (Forall2_evolves_insert (regions g) (currentRegion g) r
           (setCrates (setCrates r c1) c2)); [assumption|].
  split; [|split].
  - unfold layout. simpl. now rewrite H2, H1.
  - now apply keepsProgress_same.
  - auto.
Qed.

Lemma collectSeeds_progress (pl : Rect) (d : Q) (l : list Seed) :
  Forall2 (fun sd sd' => collected sd = true -> collected sd' = true)
          l (collectSeeds pl d l).1.
Proof.
  induction l as [|sd l IH]; simpl; [constructor|].
  destruct (collectSeeds pl d l) as [l' n]. simpl in *.
  destruct (collected sd) eqn:Ec; simpl.
  - constructor; auto.
  - destruct (rectOverlap pl (tileRect (seed_pos sd))); simpl; constructor; auto;
      simpl; congruence.
Qed.

Lemma updateSeeds_evolves (d : Q) (g g' : Game) :
  updateSeeds d g = Ok g' -> Forall2 evolves (regions g) (regions g').
Proof.
  unfold updateSeeds, currentRegionOf.
  destruct (regions g !! currentRegion g) as [r|] eqn:Hr; [|discriminate]. cbn [bind].
  destruct (collectSeeds_spec (playerRect (player g)) d (seeds r)) as (H1 & _ & _).
  pose proof (collectSeeds_progress (playerRect (player g)) d (seeds r)) as H2.
  destruct (collectSeeds _ d (seeds r)) as [ss n]. simpl in *.
  intros [= <-]. simpl.
  apply (Forall2_evolves_insert (regions g) (currentRegion g) r (setSeeds r ss));
    [assumption|].
  split; [|split].
  - unfold layout. simpl. f_equal.
    rewrite <- (map_map seed_pos (fun p => mkSeed p false 0) ss).
    rewrite <- (map_map seed_pos (fun p => mkSeed p false 0) (seeds r)).
    now rewrite H1.
  - split; [exact H2|]. simpl. destruct (puzzle r); auto.
  - auto.
Qed.

Lemma update_layout_progress (pl : Player) (interaction : bool) (r : Region)
    (store : gmap string Interaction) (p : Puzzle) :
  puzzleLayout (update pl interaction r store p).1.1 = puzzleLayout p /\
  (solved p = true -> solved (update pl interaction r store p).1.1 = true).
Proof.
  destruct p as [sv pd | sv i pads key | sv | sv td]; simpl.
  - unfold plate_update. destruct sv; [auto|].
    destruct (forallb _ _); simpl; (split; [|discriminate]);
      f_equal; rewrite map_map; reflexivity.
  - unfold sequence_update. destruct sv; [auto|].
    repeat match goal with
           | |- context [if ?b then _ else _] => destruct b
           end; simpl; split; auto; discriminate.
  - unfold crate_update. destruct sv; [auto|].
    destruct (isSolved _ _); simpl; auto.
  - unfold teleporter_update. destruct sv; [auto|].
    assert (E : forall l : list Teleporter,
               map (fun t => mkTeleporter (tele_pos t) false)
                   (map (fun t => if rectOverlap (playerRect pl) (tileRect (tele_pos t))
                                  then mkTeleporter (tele_pos t) (negb (active t)) else t) l)
               = map (fun t => mkTeleporter (tele_pos t) false) l).
    { intros l. rewrite map_map. apply map_ext. intros t.
      now destruct (rectOverlap _ _). }
    destruct interaction; simpl;
      destruct (forallb _ _); simpl; (split; [|discriminate]); now rewrite ?E.
Qed.

Lemma updatePuzzle_evolves (interactDown : bool) (g g' : Game) :
  updatePuzzle interactDown g = Ok g' -> Forall2 evolves (regions g) (regions g').
Proof.
  unfold updatePuzzle, currentRegionOf.
  destruct (regions g !! currentRegion g) as [r|] eqn:Hr; [|discriminate]. cbn [bind].
  destruct (puzzle r) as [p|] eqn:Hp.
  - destruct (update_layout_progress (player g) (interactDown && negb (interactionPending g))
                r (puzzlePadInteraction g) p) as [H1 H2].
    destruct (update _ _ r _ p) as [[p' store] ev]. simpl in *.
    intros [= <-]. simpl.
    apply (Forall2_evolves_insert (regions g) (currentRegion g) r (setPuzzleAndGate r p'));
      [assumption|].
    split; [|split].
    + unfold layout. simpl. rewrite Hp. simpl. rewrite H1. now destruct (gate r).
    + split; [apply Forall_Forall2_diag, Forall_forall; auto|]. simpl. now rewrite Hp.
    + intros _. unfold gateSynced. simpl. now destruct (gate r).
  - intros [= <-]. apply Forall2_evolves_refl.
Qed.

Lemma checkRegionSwitch_regions (g g' : Game) :
  checkRegionSwitch g = Ok g' -> regions g' = regions g.
Proof.
  unfold checkRegionSwitch.
  destruct (currentRegionOf g); cbn [bind]; try discriminate.
  destruct (switchRight _ _ _); cbn [bind]; try discriminate.
  destruct (switchLeft _ _ _); cbn [bind]; try discriminate.
  destruct (switchTop _ _ _); cbn [bind]; try discriminate.
  destruct (switchBottom _ _ _); cbn [bind]; try discriminate.
  now intros [= <-].
Qed.

Lemma tick_evolves (i : Input) (g g' : Game) :
  tick i g = Ok g' -> Forall2 evolves (regions g) (regions g').
Proof.
  unfold tick. destruct (paused g).
  - intros [= <-]. apply Forall2_evolves_refl.
  - destruct (intent i) as [dx dy].
    destruct (movePlayer dx dy g) as [g1| |] eqn:H1; cbn [bind]; try discriminate.
    destruct (updateSeeds (dt i) (addTime (dt i) g1)) as [g3| |] eqn:H3;
      cbn [bind]; try discriminate.
    destruct (updatePuzzle (key_interact i) g3) as [g4| |] eqn:H4;
      cbn [bind]; try discriminate.
    destruct (checkRegionSwitch g4) as [g5| |] eqn:H5; cbn [bind]; try discriminate.
    intros [= <-].
    destruct (checkWinCondition_same g5) as (_ & _ & ->).
    rewrite (checkRegionSwitch_regions _ _ H5).
    apply movePlayer_evolves in H1. apply updateSeeds_evolves in H3.
    apply updatePuzzle_evolves in H4.
    eauto using Forall2_evolves_trans.
Qed.

Lemma run_evolves (inputs : list Input) (g g' : Game) :
  run inputs g = Ok g' -> Forall2 evolves (regions g) (regions g').
Proof.
  revert g. induction inputs as [|i inputs IH]; intros g; simpl.
  - intros [= <-]. apply Forall2_evolves_refl.
  - destruct (tick i g) as [g1| |] eqn:H1; cbn [bind]; try discriminate.
    intros H. eapply Forall2_evolves_trans; [eapply tick_evolves, H1 | now apply IH].
Qed.

Lemma wf_generated : wf (generateContent pageLoad).
Proof.
  split; [reflexivity|]. split; [simpl; lia|]. repeat constructor.
Qed.

(** X4.  No play changes the layout of a region: over any number of frames
    the grid size, the positions of the seeds, the obstacles, the number and
    sizes of the crates, the target zones, the kind of puzzle with its
    plates, pads or switches, and the rectangle of the gate stay what they
    were; only seed flags, crate positions, puzzle state and the gate's
    closed flag are written. *)
Theorem play_keeps_layout (inputs : list Input) (g : Game) :
  wf g ->
  exists g', run inputs g = Ok g' /\ map layout (regions g') = map layout (regions g).
Proof.
  intros Hwf. destruct (run_wf inputs g Hwf) as (g' & H & _).
  exists g'. split; [assumption|].
  apply run_evolves in H. induction H as [|r r' rs rs' (L & _) _ IH]; simpl; congruence.
Qed.

Lemma play_keeps_layout_witness :
  exists g', run [holdRight; holdDown] (generateContent pageLoad) = Ok g' /\
    map layout (regions g') = map layout (regions (generateContent pageLoad)).
Proof.
  apply (play_keeps_layout [holdRight; holdDown] (generateContent pageLoad)).
  exact wf_generated.
Defined.

(** X5.  No play loses progress: over any number of frames a seed that was
    collected stays collected and a puzzle that was solved stays solved, in
    every region. *)
Theorem play_keeps_progress (inputs : list Input) (g : Game) :
  wf g ->
  exists g', run inputs g = Ok g' /\ Forall2 keepsProgress (regions g) (regions g').
Proof.
  intros Hwf. destruct (run_wf inputs g Hwf) as (g' & H & _).
  exists g'. split; [assumption|].
  apply run_evolves in H. eapply Forall2_impl; [exact H|]. now intros r r' (_ & P & _).
Qed.

Lemma play_keeps_progress_witness :
  exists g', run [holdRight; holdDown] (generateContent pageLoad) = Ok g' /\
    Forall2 keepsProgress (regions (generateContent pageLoad)) (regions g').
Proof.
  apply (play_keeps_progress [holdRight; holdDown] (generateContent pageLoad)).
  exact wf_generated.
Defined.

(** X6.  Gates follow puzzles: if every gate is closed exactly when the
    puzzle of its region is unsolved, then so it is after any number of
    frames. *)
Theorem play_keeps_gates_synced (inputs : list Input) (g : Game) :
  wf g -> Forall gateSynced (regions g) ->
  exists g', run inputs g = Ok g' /\ Forall gateSynced (regions g').
Proof.
  intros Hwf Hs. destruct (run_wf inputs g Hwf) as (g' & H & _).
  exists g'. split; [assumption|].
  apply run_evolves in H. induction H as [|r r' rs rs' (_ & _ & G) _ IH];
    [constructor|].
  apply Forall_cons in Hs as [Hr Hs]. constructor; auto.
Qed.

Lemma play_keeps_gates_synced_witness :
  exists g', run [holdRight; holdDown] (generateContent pageLoad) = Ok g' /\
    Forall gateSynced (regions g').
Proof.
  apply (play_keeps_gates_synced [holdRight; holdDown] (generateContent pageLoad)).
  - exact wf_generated.
  - repeat constructor.
Defined.

(** ** The other edges of a region *)

Lemma regionEdges_neighbours (n : nat) (e : option nat * option nat * option nat * option nat) :
  regionEdges !! n = Some e ->
  edge_up e = None /\ edge_down e = None /\
  (forall m, edge_right e = Some m -> m = S n) /\
  (forall m, edge_left e = Some m -> n = S m).
Proof.
  do 5 (destruct n as [|n]; [intros [= <-]; repeat split; cbn; intros; simplify_eq; lia|]).
  discriminate.
Qed.

Section Edges.
Variables (rs : list Region) (region : Region).
Hypothesis Hlen : length rs = 5%nat.
Hypothesis Hdims : Forall (fun r => cols r = COLS /\ rows r = ROWS) rs.
Hypothesis Hcols : cols region = COLS.
Hypothesis Hrows : rows region = ROWS.

Lemma switchRight_step (s : Switch) :
  (sw_region s < 5)%nat -> sw_moved s = false ->
  exists s', switchRight rs region s = Ok s' /\ (sw_region s' < 5)%nat /\
    (sw_region s' = sw_region s /\ sw_moved s' = false \/
     sw_region s' = S (sw_region s) /\ sw_moved s' = true /\ sw_x s' = 2).
Proof.
  intros Hn Hm. unfold switchRight.
  destruct (gtq (sw_x s + player_w) (cols region * TILE)); [|exists s; auto].
  destruct (regionEdges_lookup _ Hn) as (e & He & _ & _ & Hright & _).
  destruct (regionEdges_neighbours _ _ He) as (_ & _ & Hr & _).
  unfold lookupRes. rewrite He. cbn [bind].
  destruct (edge_right e) as [next|] eqn:E.
  - destruct (rs_lookup rs Hlen Hdims next (Hright _ eq_refl)) as (r' & Hr' & _).
    rewrite Hr'. cbn [bind]. eexists. split; [reflexivity|]. simpl.
    split; [auto|]. right. rewrite (Hr next eq_refl). auto.
  - eexists. split; [reflexivity|]. simpl. auto.
Qed.

Lemma switchLeft_step (s : Switch) :
  (sw_region s < 5)%nat ->
  exists s', switchLeft rs region s = Ok s' /\ (sw_region s' < 5)%nat /\
    (sw_region s' = sw_region s /\ sw_moved s' = sw_moved s \/
     S (sw_region s') = sw_region s /\ sw_moved s' = true /\ sw_x s < 0).
Proof.
  intros Hn. unfold switchLeft.
  destruct (ltq (sw_x s) 0) eqn:Hx; [|exists s; auto].
  apply ltq_spec in Hx.
  destruct (regionEdges_lookup _ Hn) as (e & He & _ & _ & _ & Hleft).
  destruct (regionEdges_neighbours _ _ He) as (_ & _ & _ & Hl).
  unfold lookupRes. rewrite He. cbn [bind].
  destruct (edge_left e) as [next|] eqn:E.
  - destruct (rs_lookup rs Hlen Hdims next (Hleft _ eq_refl)) as (r' & Hr' & _).
    rewrite Hr'. cbn [bind]. eexists. split; [reflexivity|]. simpl.
    split; [auto|]. right. rewrite (Hl next eq_refl). auto.
  - eexists. split; [reflexivity|]. simpl. auto.
Qed.

Lemma switchTop_keeps (s : Switch) :
  (sw_region s < 5)%nat ->
  switchTop rs region s
  = Ok (mkSwitch (sw_region s) (sw_x s) (if ltq (sw_y s) 0 then 0 else sw_y s) (sw_moved s)).
Proof.
  intros Hn. unfold switchTop. destruct (ltq (sw_y s) 0); [|now destruct s].
  destruct (regionEdges_lookup _ Hn) as (e & He & Hup & _).
  unfold lookupRes. rewrite He. cbn [bind]. now rewrite Hup.
Qed.

Lemma switchBottom_keeps (s : Switch) :
  (sw_region s < 5)%nat ->
  switchBottom rs region s
  = Ok (mkSwitch (sw_region s) (sw_x s)
          (if gtq (sw_y s + player_h) (rows region * TILE)
           then rows region * TILE - player_h else sw_y s)
          (sw_moved s)).
Proof.
  intros Hn. unfold switchBottom.
  destruct (gtq (sw_y s + player_h) (rows region * TILE)); [|now destruct s].
  destruct (regionEdges_lookup _ Hn) as (e & He & _ & Hdown & _).
  unfold lookupRes. rewrite He. cbn [bind]. now rewrite Hdown.
Qed.

End Edges.

(** X7.  [checkRegionSwitch] never touches the regions; it changes the
    current region to a direct neighbour or not at all, and it requests the
    music fade and a save exactly when it changes it. *)
Theorem checkRegionSwitch_saves_on_change (g : Game) :
  wf g ->
  exists g', checkRegionSwitch g = Ok g' /\ regions g' = regions g /\
    (currentRegion g' = currentRegion g /\ events g' = events g \/
     (currentRegion g' = S (currentRegion g) \/ S (currentRegion g') = currentRegion g) /\
     events g' = events g ++ [FadeToRegion (currentRegion g'); SaveGame]).
Proof.
  intros Hwf. pose proof Hwf as (Hlen & Hcur & Hdims).
  destruct (wf_current g Hwf) as (region & Hreg & Hcols & Hrows).
  unfold checkRegionSwitch, currentRegionOf. rewrite Hreg. cbn [bind].
  set (s0 := mkSwitch _ _ _ _).
  destruct (switchRight_step (regions g) region Hlen Hdims s0 Hcur eq_refl)
    as (s1 & H1 & Hn1 & C1).
  rewrite H1. cbn [bind].
  destruct (switchLeft_step (regions g) region Hlen Hdims s1 Hn1) as (s2 & H2 & Hn2 & C2).
  rewrite H2. cbn [bind].
  rewrite (switchTop_keeps (regions g) region s2 Hn2). cbn [bind].
  rewrite (switchBottom_keeps (regions g) region) by exact Hn2. cbn [bind].
  eexists. split; [reflexivity|]. simpl. split; [reflexivity|].
  destruct C1 as [(R1 & M1) | (R1 & M1 & X1)].
  - destruct C2 as [(R2 & M2) | (R2 & M2 & _)].
    + left. rewrite M2, M1, R2, R1. simpl. split; [reflexivity | apply app_nil_r].
    + right. rewrite M2. split; [|reflexivity]. right. now rewrite R2, R1.
  - destruct C2 as [(R2 & M2) | (_ & _ & X2)].
    + right. rewrite M2, M1. split; [|reflexivity]. left. now rewrite R2, R1.
    + exfalso. rewrite X1 in X2. revert X2. unfold Qlt. simpl. lia.
Qed.

Lemma checkRegionSwitch_saves_on_change_witness :
  exists g', checkRegionSwitch (generateContent pageLoad) = Ok g' /\
    regions g' = regions (generateContent pageLoad) /\
    (currentRegion g' = 0%nat /\ events g' = [] \/
     (currentRegion g' = 1%nat \/ S (currentRegion g') = 0%nat) /\
     events g' = [] ++ [FadeToRegion (currentRegion g'); SaveGame]).
Proof.
  apply (checkRegionSwitch_saves_on_change (generateContent pageLoad)).
  exact wf_generated.
Defined.



(** X9.  The top and the bottom of a region are walls: when the player is
    inside the region horizontally, [checkRegionSwitch] keeps the region, x
    and the event log, puts a player above the top at y = 0 and a player past
    the bottom with its lower edge on it, and leaves any other y alone. *)
Theorem checkRegionSwitch_vertical_walls (g : Game) (region : Region) :
  wf g -> regions g !! currentRegion g = Some region ->
  0 <= player_x (player g) -> player_x (player g) + player_w <= cols region * TILE ->
  exists g', checkRegionSwitch g = Ok g' /\
    currentRegion g' = currentRegion g /\
    player_x (player g') = player_x (player g) /\
    player_y (player g')
    = (if ltq (player_y (player g)) 0 then 0
       else if gtq (player_y (player g) + player_h) (rows region * TILE)
            then rows region * TILE - player_h
            else player_y (player g)) /\
    events g' = events g.
Proof.
  intros Hwf Hreg Hx0 Hx1. pose proof Hwf as (Hlen & Hcur & Hdims).
  destruct (Forall_lookup_1 _ _ _ _ Hdims Hreg) as [Hcols Hrows].
  unfold checkRegionSwitch, currentRegionOf. rewrite Hreg. cbn [bind].
  set (s0 := mkSwitch _ _ _ _).
  assert (H1 : switchRight (regions g) region s0 = Ok s0).
  { unfold switchRight.
    replace (gtq (sw_x s0 + player_w) (cols region * TILE)) with false; [reflexivity|].
    symmetry. unfold gtq. now apply negb_false_iff, Qle_bool_iff. }
  assert (H2 : switchLeft (regions g) region s0 = Ok s0).
  { unfold switchLeft.
    replace (ltq (sw_x s0) 0) with false; [reflexivity|].
    symmetry. unfold ltq. now apply negb_false_iff, Qle_bool_iff. }
  rewrite H1. cbn [bind]. rewrite H2. cbn [bind].
  rewrite (switchTop_keeps (regions g) region) by exact Hcur. cbn [bind].
  rewrite (switchBottom_keeps (regions g) region) by exact Hcur. cbn [bind].
  eexists. split; [reflexivity|]. simpl.
  repeat split; [|apply app_nil_r].
  destruct (ltq (player_y (player g)) 0); [|reflexivity].
  replace (gtq (0 + player_h) (rows region * TILE)) with false; [reflexivity|].
  symmetry. unfold gtq. apply negb_false_iff, Qle_bool_iff. rewrite Hrows. q_unfold. lra.
Qed.

Lemma checkRegionSwitch_vertical_walls_witness :
  exists g',
    checkRegionSwitch
      (mkGame 2 (mkPlayer 100 (-5)) 0 0 false false (replicate 5 emptyRegion) ∅ [])
    = Ok g' /\
    currentRegion g' = 2%nat /\ player_x (player g') = 100 /\
    player_y (player g') = 0 /\ events g' = [].
Proof.
  apply (checkRegionSwitch_vertical_walls
           (mkGame 2 (mkPlayer 100 (-5)) 0 0 false false (replicate 5 emptyRegion) ∅ [])
           emptyRegion).
  - split; [reflexivity|]. split; [simpl; lia|]. repeat constructor.
  - reflexivity.
  - discriminate.
  - discriminate.
Defined.

(** ** The camera *)

Lemma round_lower (v : Q) : v - (1 # 2) < round v.
Proof.
  unfold round. pose proof (Qlt_floor (v + (1 # 2))) as H.
  rewrite inject_Z_plus in H. change (inject_Z 1) with 1 in H. lra.
Qed.

Lemma round_upper (v : Q) : round v <= v + (1 # 2).
Proof. unfold round. apply Qfloor_le. Qed.

Lemma camera_axis (p size W view : Q) :
  0 <= p -> p + size <= W -> size + 1 <= view ->
  let c := clamp (round (p - view / 2 + size / 2)) 0 (Math_max 0 (W - view)) in
  0 <= c /\ c <= Math_max 0 (W - view) /\ c <= p /\ p + size <= c + view.
Proof.
  intros H0 H1 Hv.
  pose proof (round_lower (p - view / 2 + size / 2)) as Hl.
  pose proof (round_upper (p - view / 2 + size / 2)) as Hu.
  set (v := round _) in *. clearbody v. cbv zeta.
  assert (Hhv : view / 2 * 2 == view) by field.
  assert (Hhs : size / 2 * 2 == size) by field.
  set (hv := view / 2) in *. set (hs := size / 2) in *. clearbody hv hs.
  unfold clamp, Math_max, Math_min, leq. q_cases; repeat split; lra.
Qed.

(** X10.  While the player's rectangle lies inside the current region, the
    camera of the frame lies between 0 and [max(0, size - view)] on each axis
    and the whole rectangle of the player is inside the view of
    [VIEW_W] x [VIEW_H] pixels the camera selects. *)
Theorem camera_shows_player (g : Game) :
  contained g ->
  exists r cx cy, regions g !! currentRegion g = Some r /\ camera g = Ok (cx, cy) /\
    (0 <= cx /\ cx <= Math_max 0 (cols r * TILE - VIEW_W) /\
     cx <= player_x (player g) /\ player_x (player g) + player_w <= cx + VIEW_W) /\
    (0 <= cy /\ cy <= Math_max 0 (rows r * TILE - VIEW_H) /\
     cy <= player_y (player g) /\ player_y (player g) + player_h <= cy + VIEW_H).
Proof.
  intros (r & Hr & Hx0 & Hx1 & Hy0 & Hy1). simpl in *.
  exists r. unfold camera, currentRegionOf. rewrite Hr. cbn [bind].
  eexists. eexists. split; [reflexivity|]. split; [reflexivity|]. split.
  - apply (camera_axis (player_x (player g)) player_w (cols r * TILE) VIEW_W); auto.
    discriminate.
  - apply (camera_axis (player_y (player g)) player_h (rows r * TILE) VIEW_H); auto.
    discriminate.
Qed.

Lemma camera_shows_player_witness :
  exists cx cy,
    camera (mkGame 0 (mkPlayer 900 100) 0 0 false false (replicate 5 emptyRegion) ∅ [])
    = Ok (cx, cy) /\ cx <= 900 /\ 900 + player_w <= cx + VIEW_W.
Proof.
  destruct (camera_shows_player
              (mkGame 0 (mkPlayer 900 100) 0 0 false false (replicate 5 emptyRegion) ∅ []))
    as (r & cx & cy & _ & Hc & (_ & _ & Hx1 & Hx2) & _).
  - exists emptyRegion. split; [reflexivity|]. vm_compute. repeat split; discriminate.
  - exists cx, cy. auto.
Defined.

(** ** The keys *)

(** X11.  The displacement [loop] derives from the keys: an axis is zero
    exactly when its two keys are both held or both released, the sign
    follows the key held, and the length of the displacement never exceeds
    the player's speed, diagonals included. *)
Theorem intent_speed (i : Input) :
  let '(dx, dy) := intent i in
  dx * dx + dy * dy <= player_speed * player_speed /\
  (dx == 0 <-> key_left i = key_right i) /\
  (dy == 0 <-> key_up i = key_down i) /\
  (0 < dx <-> key_left i = false /\ key_right i = true) /\
  (0 < dy <-> key_up i = false /\ key_down i = true).
Proof.
  destruct i as [[] [] [] [] k d]; vm_compute;
    repeat split; intros; try discriminate; try congruence;
    repeat match goal with H : _ /\ _ |- _ => destruct H end; try discriminate.
Qed.

(** ** The timer *)





(** ** The seed counter and the end of the game *)

Lemma foldl_add (h : Region -> nat) (a : nat) (rs : list Region) :
  foldl (fun sum r => (sum + h r)%nat) a rs
  = (a + foldl (fun sum r => (sum + h r)%nat) 0%nat rs)%nat.
Proof.
  revert a. induction rs as [|r rs IH]; intros a; simpl; [lia|].
  rewrite (IH (a + h r)%nat), (IH (h r)). lia.
Qed.

Lemma seedTotal_cons (r : Region) (rs : list Region) :
  seedTotal (r :: rs) = (length (seeds r) + seedTotal rs)%nat.
Proof. unfold seedTotal. simpl. apply (foldl_add (fun r => length (seeds r))). Qed.

Lemma seedCollected_cons (r : Region) (rs : list Region) :
  seedCollected (r :: rs)
  = (length (filter (fun sd => collected sd = true) (seeds r)) + seedCollected rs)%nat.
Proof.
  unfold seedCollected. simpl.
  apply (foldl_add (fun r => length (filter (fun sd => collected sd = true) (seeds r)))).
Qed.

Lemma collected_count (ss : list Seed) :
  (length (filter (fun sd => collected sd = true) ss) <= length ss)%nat /\
  (forallb collected ss = true
   <-> length (filter (fun sd => collected sd = true) ss) = length ss).
Proof.
  induction ss as [|s ss [IH1 IH2]]; [now split|].
  rewrite filter_cons. simpl. destruct (decide (collected s = true)) as [E|E].
  - rewrite E. simpl. split; [lia|]. rewrite IH2. lia.
  - apply not_true_is_false in E. rewrite E. simpl. split; [lia|].
    split; [discriminate | lia].
Qed.

(** X13.  The counter never shows more seeds collected than there are, and
    the test of [checkWinCondition] that every seed of every region is
    collected holds exactly when the two numbers of the counter are equal. *)
Theorem counter_full_iff_all_collected (rs : list Region) :
  (seedCollected rs <= seedTotal rs)%nat /\
  (forallb (fun r => forallb collected (seeds r)) rs = true
   <-> seedCollected rs = seedTotal rs).
Proof.
  induction rs as [|r rs [IH1 IH2]]; [now split|].
  rewrite seedTotal_cons, seedCollected_cons. simpl.
  destruct (collected_count (seeds r)) as [H1 H2].
  split; [lia|]. rewrite andb_true_iff, H2, IH2. lia.
Qed.

Lemma progress_count (ss ss' : list Seed) :
  Forall2 (fun sd sd' => collected sd = true -> collected sd' = true) ss ss' ->
  length ss' = length ss /\
  (length (filter (fun sd => collected sd = true) ss)
   <= length (filter (fun sd => collected sd = true) ss'))%nat.
Proof.
  induction 1 as [|s s' ss ss' H _ [IH1 IH2]]; [now split|].
  rewrite !filter_cons. simpl.
  destruct (decide (collected s = true)) as [E|E].
  - rewrite decide_True by auto. simpl. lia.
  - destruct (decide (collected s' = true)); simpl; lia.
Qed.

Lemma evolves_count (rs rs' : list Region) :
  Forall2 evolves rs rs' ->
  seedTotal rs' = seedTotal rs /\ (seedCollected rs <= seedCollected rs')%nat.
Proof.
  induction 1 as [|r r' rs rs' (_ & [Hs _] & _) _ [IH1 IH2]]; [now split|].
  rewrite !seedTotal_cons, !seedCollected_cons.
  destruct (progress_count _ _ Hs). lia.
Qed.

(** X14.  Over any number of frames the total the seed counter shows stays
    the same and the number of collected seeds it shows never goes down. *)
Theorem counter_never_goes_down (inputs : list Input) (g : Game) :
  wf g ->
  exists g', run inputs g = Ok g' /\
    seedTotal (regions g') = seedTotal (regions g) /\
    (seedCollected (regions g) <= seedCollected (regions g'))%nat.
Proof.
  intros Hwf. destruct (run_wf inputs g Hwf) as (g' & H & _).
  exists g'. split; [assumption|]. apply evolves_count. eapply run_evolves, H.
Qed.

Lemma counter_never_goes_down_witness :
  exists g',
    run [mkInput false false false true false 16] (generateContent pageLoad) = Ok g' /\
    seedTotal (regions g') = seedTotal (regions (generateContent pageLoad)) /\
    (seedCollected (regions (generateContent pageLoad)) <= seedCollected (regions g'))%nat.
Proof.
  apply (counter_never_goes_down [mkInput false false false true false 16]
           (generateContent pageLoad)).
  split; [reflexivity|]. split; [simpl; lia|]. repeat constructor.
Defined.

Lemma run_paused (inputs : list Input) (g : Game) :
  paused g = true -> run inputs g = Ok g.
Proof.
  intros Hp. induction inputs as [|i inputs IH]; [reflexivity|].
  simpl. unfold tick. rewrite Hp. cbn [bind]. exact IH.
Qed.

Lemma checkRegionSwitch_paused (g g' : Game) :
  checkRegionSwitch g = Ok g' -> paused g' = paused g.
Proof.
  unfold checkRegionSwitch.
  destruct (currentRegionOf g) as [region| |]; cbn [bind]; try discriminate.
  destruct (switchRight _ _ _) as [s1| |]; cbn [bind]; try discriminate.
  destruct (switchLeft _ _ _) as [s2| |]; cbn [bind]; try discriminate.
  destruct (switchTop _ _ _) as [s3| |]; cbn [bind]; try discriminate.
  destruct (switchBottom _ _ _) as [s4| |]; cbn [bind]; try discriminate.
  now intros [= <-].
Qed.

Lemma checkWinCondition_paused (g : Game) :
  paused g = false ->
  (paused (checkWinCondition g) = true <->
   forallb (fun r => forallb collected (seeds r)) (regions g) = true /\
   currentRegion g = 4%nat /\
   rectOverlap (playerRect (player g)) monument = true) /\
  (paused (checkWinCondition g) = true ->
   events (checkWinCondition g) = events g ++ [SfxWin; SubmitScore]) /\
  (paused (checkWinCondition g) = false -> checkWinCondition g = g).
Proof.
  intros Hp. unfold checkWinCondition.
  destruct (forallb _ (regions g)); simpl.
  - destruct (Nat.eqb_spec (currentRegion g) 4) as [E|E]; simpl.
    + destruct (rectOverlap _ monument); simpl.
      * repeat split; auto; discriminate.
      * rewrite Hp. repeat split; try discriminate; auto. now intros (_ & _ & ?).
    + rewrite Hp. repeat split; try discriminate; auto. now intros (_ & ? & _).
  - rewrite Hp. repeat split; try discriminate; auto. now intros (? & _).
Qed.

(** X15.  A frame of a running game pauses it exactly when, at the end of
    the frame, every seed of every region is collected, the current region
    is region 4 and the player overlaps the monument.  The score is then
    submitted as the last thing of the frame, and from then on frames change
    nothing, whatever the keys. *)
Theorem frame_pauses_exactly_on_win (i : Input) (g : Game) :
  wf g -> paused g = false ->
  exists g', tick i g = Ok g' /\
    (paused g' = true <->
     forallb (fun r => forallb collected (seeds r)) (regions g') = true /\
     currentRegion g' = 4%nat /\
     rectOverlap (playerRect (player g')) monument = true) /\
    (paused g' = true ->
     last (events g') = Some SubmitScore /\ forall inputs, run inputs g' = Ok g').
Proof.
  intros Hwf Hp. unfold tick. rewrite Hp. destruct (intent i) as [dx dy].
  destruct (movePlayer_wf dx dy g Hwf) as (g1 & H1 & Hwf1 & Hp1). rewrite H1. cbn [bind].
  assert (Hwf2 : wf (addTime (dt i) g1)) by exact Hwf1.
  destruct (updateSeeds_wf (dt i) _ Hwf2) as (g3 & H3 & Hwf3 & Hp3). rewrite H3. cbn [bind].
  destruct (updatePuzzle_wf (key_interact i) _ Hwf3) as (g4 & H4 & Hwf4 & Hp4).
  rewrite H4. cbn [bind].
  destruct (checkRegionSwitch_inside g4 Hwf4) as (g5 & r' & H5 & _). rewrite H5. cbn [bind].
  assert (Hp5 : paused g5 = false).
  { rewrite (checkRegionSwitch_paused _ _ H5), Hp4, Hp3. simpl. now rewrite Hp1. }
  destruct (checkWinCondition_paused g5 Hp5) as (Hiff & Hev & _).
  destruct (checkWinCondition_same g5) as (Hc & Hpl & Hrs).
  eexists. split; [reflexivity|]. split.
  - rewrite Hc, Hpl, Hrs. exact Hiff.
  - intros Hw. split.
    + rewrite (Hev Hw).
      change [SfxWin; SubmitScore] with ([SfxWin] ++ [SubmitScore]).
      rewrite app_assoc. apply last_snoc.
    + intros inputs. now apply run_paused.
Qed.

Lemma frame_pauses_exactly_on_win_witness :
  exists g',
    tick (mkInput false false false true false 16) (generateContent pageLoad) = Ok g' /\
    (paused g' = true <->
     forallb (fun r => forallb collected (seeds r)) (regions g') = true /\
     currentRegion g' = 4%nat /\
     rectOverlap (playerRect (player g')) monument = true).
Proof.
  destruct (frame_pauses_exactly_on_win (mkInput false false false true false 16)
              (generateContent pageLoad)) as (g' & H & Hiff & _).
  - split; [reflexivity|]. split; [simpl; lia|]. repeat constructor.
  - reflexivity.
  - exists g'. split; assumption.
Defined.

(** ** The puzzles *)

Lemma checkPressed_spec (pl : Rect) (cs : list Rect) (p : Pos) :
  checkPressed pl cs p = true <->
  rectOverlap pl (tileRect p) = true \/
  Exists (fun c => rectOverlap c (tileRect p) = true) cs.
Proof.
  unfold checkPressed. destruct (rectOverlap pl (tileRect p)).
  - split; auto.
  - rewrite existsb_exists, Exists_exists. split.
    + intros (c & Hin & Hc). right. exists c. split; [now apply list_elem_of_In | exact Hc].
    + intros [?|(c & Hin & Hc)]; [discriminate|].
      exists c. split; [now apply list_elem_of_In | exact Hc].
Qed.

(** X16.  An update of an unsolved plate puzzle keeps the plates where they
    are and recomputes every pressed flag from scratch: a plate is pressed
    exactly when the player or some crate of the region overlaps its tile,
    whatever the flag was.  The puzzle turns solved, with the clear sound,
    exactly when every plate is pressed in that same update. *)
Theorem plate_update_pressed (pl : Rect) (cs : list Rect) (platesData : list Plate) :
  exists sv' platesData',
    plate_update pl cs false platesData
    = (DynamicPlatePuzzle sv' platesData', if sv' then [SfxPuzzleClear] else []) /\
    map plate_pos platesData' = map plate_pos platesData /\
    Forall (fun p => isPressed p = true <->
                     rectOverlap pl (tileRect (plate_pos p)) = true \/
                     Exists (fun c => rectOverlap c (tileRect (plate_pos p)) = true) cs)
           platesData' /\
    (sv' = true <-> Forall (fun p => isPressed p = true) platesData').
Proof.
  unfold plate_update.
  set (pd' := map _ platesData).
  assert (Hpos : map plate_pos pd' = map plate_pos platesData).
  { unfold pd'. rewrite map_map. reflexivity. }
  assert (Hpr : Forall (fun p => isPressed p = true <->
                     rectOverlap pl (tileRect (plate_pos p)) = true \/
                     Exists (fun c => rectOverlap c (tileRect (plate_pos p)) = true) cs) pd').
  { unfold pd'. apply Forall_forall. intros p Hin.
    apply list_elem_of_fmap in Hin as (p0 & -> & _). simpl. apply checkPressed_spec. }
  assert (Hall : forallb isPressed pd' = true <-> Forall (fun p => isPressed p = true) pd').
  { rewrite forallb_forall, Forall_forall. split; intros H p Hin; apply H.
    - now apply list_elem_of_In.
    - now apply list_elem_of_In. }
  destruct (forallb isPressed pd') eqn:E.
  - exists true, pd'. repeat split; auto. intros _. now apply Hall.
  - exists false, pd'. repeat split; auto; try discriminate.
    intros H. apply Hall in H. discriminate.
Qed.

(** X17.  An update of an unsolved switch puzzle keeps the switches where
    they are; with the interaction signal it flips exactly the switches the
    player overlaps, without it it flips none, and the interact sound is
    requested exactly when one was flipped.  The puzzle turns solved, with
    the clear sound last, exactly when every switch is active afterwards. *)
Theorem teleporter_update_toggles (pl : Rect) (interactionKey : bool)
    (teleporterData : list Teleporter) :
  exists sv' teleporterData',
    teleporter_update pl interactionKey false teleporterData
    = (TeleporterPuzzle sv' teleporterData',
       (if interactionKey &&
           existsb (fun t => rectOverlap pl (tileRect (tele_pos t))) teleporterData
        then [SfxInteract] else [])
       ++ (if sv' then [SfxPuzzleClear] else [])) /\
    Forall2 (fun t t' =>
               tele_pos t' = tele_pos t /\
               active t' = if interactionKey && rectOverlap pl (tileRect (tele_pos t))
                           then negb (active t) else active t)
            teleporterData teleporterData' /\
    (sv' = true <-> Forall (fun t => active t = true) teleporterData').
Proof.
  unfold teleporter_update.
  set (td' := if interactionKey then map _ teleporterData else teleporterData).
  assert (H2 : Forall2 (fun t t' =>
               tele_pos t' = tele_pos t /\
               active t' = if interactionKey && rectOverlap pl (tileRect (tele_pos t))
                           then negb (active t) else active t) teleporterData td').
  { unfold td'. destruct interactionKey; simpl.
    - apply Forall2_fmap_r, Forall_Forall2_diag, Forall_forall. intros t _.
      simpl. destruct (rectOverlap pl (tileRect (tele_pos t))) eqn:E;
        rewrite ?E; simpl; auto.
    - apply Forall_Forall2_diag, Forall_forall. auto. }
  assert (Hall : forallb active td' = true <-> Forall (fun t => active t = true) td').
  { rewrite forallb_forall, Forall_forall. split; intros H p Hin; apply H.
    - now apply list_elem_of_In.
    - now apply list_elem_of_In. }
  destruct (forallb active td') eqn:E.
  - exists true, td'. repeat split; auto. intros _. now apply Hall.
  - exists false, td'. rewrite app_nil_r. repeat split; auto; try discriminate.
    intros H. apply Hall in H. discriminate.
Qed.

(** X18.  The interaction signal is edge-triggered: while the interact key
    was already down at the previous update, [updatePuzzle] leaves the
    switches of a switch puzzle as they are, whether the key is still held
    or not, and remembers whether the key is down now. *)
Theorem held_key_interacts_once (interactDown : bool) (g : Game) (r : Region)
    (sv : bool) (teleporterData : list Teleporter) :
  regions g !! currentRegion g = Some r ->
  puzzle r = Some (TeleporterPuzzle sv teleporterData) ->
  interactionPending g = true ->
  exists g' r' sv',
    updatePuzzle interactDown g = Ok g' /\
    regions g' !! currentRegion g' = Some r' /\
    puzzle r' = Some (TeleporterPuzzle sv' teleporterData) /\
    interactionPending g' = interactDown.
Proof.
  intros Hr Hp Hpend. unfold updatePuzzle, currentRegionOf. rewrite Hr. cbn [bind].
  rewrite Hp, Hpend, andb_false_r. simpl.
  unfold teleporter_update. simpl.
  assert (Hlt : (currentRegion g < length (regions g))%nat)
    by (eapply lookup_lt_Some, Hr).
  destruct sv; [|destruct (forallb active teleporterData)];
    (eexists; eexists; eexists; split; [reflexivity|]; simpl; unfold setRegion;
     split; [apply list_lookup_insert_eq, Hlt|]; split; reflexivity).
Qed.

Lemma held_key_interacts_once_witness :
  exists g' r' sv',
    updatePuzzle true
      (mkGame 3 (mkPlayer (22 * TILE) (4 * TILE)) 0 0 false true
         (regions (generateContent pageLoad)) ∅ []) = Ok g' /\
    regions g' !! currentRegion g' = Some r' /\
    puzzle r' = Some (TeleporterPuzzle sv'
                        [mkTeleporter (at_tile 22 4) false; mkTeleporter (at_tile 8 14) false]) /\
    interactionPending g' = true.
Proof.
  eapply (held_key_interacts_once true
            (mkGame 3 (mkPlayer (22 * TILE) (4 * TILE)) 0 0 false true
               (regions (generateContent pageLoad)) ∅ [])).
  - reflexivity.
  - reflexivity.
  - reflexivity.
Defined.

Lemma padInteraction_insert (store : gmap string Interaction) (key : string)
    (ia : Interaction) :
  padInteraction (<[key := ia]> store) key = ia.
Proof. unfold padInteraction. now rewrite lookup_insert_eq. Qed.

Lemma findIndex_range {A} (pred : A -> bool) (l : list A) :
  findIndex pred l = (-1)%Z \/ (0 <= findIndex pred l < Z.of_nat (length l))%Z.
Proof.
  induction l as [|a l IH]; simpl; [now left|].
  destruct (pred a); [right; lia|].
  destruct (Z.eqb_spec (findIndex pred l) (-1)); [now left|].
  right. lia.
Qed.

(** X19.  An update of the sequence puzzle keeps its bookkeeping
    consistent: if the index is not negative, names a pad while the puzzle
    is unsolved and equals the number of pads once it is solved, and the
    entered flag is only set with the pad last hit being the current target,
    then all of that holds again after the update, wherever the player
    stands. *)
Theorem sequence_update_keeps_invariant (x y : Q) (sv : bool) (index : Z)
    (pads : list Pos) (padKey : string) (store : gmap string Interaction) :
  sequenceInv sv index pads (padInteraction store padKey) ->
  exists sv' index' store' ev,
    sequence_update x y sv index pads padKey store
    = (StrictSequencePuzzle sv' index' pads padKey, store', ev) /\
    sequenceInv sv' index' pads (padInteraction store' padKey).
Proof.
  intros (H0 & Hlt & Heq & Hent). unfold sequence_update.
  destruct sv.
  { do 4 eexists. split; [reflexivity|]. split; [assumption|]. split; [discriminate|].
    split; [assumption|]. exact Hent. }
  specialize (Hlt eq_refl).
  pose proof (findIndex_range
                (fun p => rectOverlap (mkRect x y TILE TILE) (tileRect p)) pads) as Hr.
  fold (touchedPad x y pads) in Hr.
  destruct (negb (touchedPad x y pads =? -1)%Z
            && negb (touchedPad x y pads =? index)%Z
            && ((0 <? index)%Z || negb (touchedPad x y pads =? -1)%Z)) eqn:E1.
  { do 4 eexists. split; [reflexivity|]. rewrite padInteraction_insert.
    repeat split; simpl; try lia; try discriminate. }
  destruct (touchedPad x y pads =? index)%Z eqn:E2.
  { do 4 eexists. split; [reflexivity|]. rewrite padInteraction_insert.
    repeat split; simpl; try lia; try discriminate. }
  destruct (enteredCorrectPad (padInteraction store padKey) && negb _) eqn:E3.
  - destruct (Z.leb_spec (Z.of_nat (length pads)) (index + 1)).
    + do 4 eexists. split; [reflexivity|]. rewrite padInteraction_insert.
      repeat split; simpl; try lia; try discriminate.
    + do 4 eexists. split; [reflexivity|]. rewrite padInteraction_insert.
      repeat split; simpl; try lia; try discriminate.
  - do 4 eexists. split; [reflexivity|]. split; [assumption|]. split; [auto|].
    split; [discriminate|]. exact Hent.
Qed.

Lemma sequence_update_keeps_invariant_witness :
  exists sv' index' store' ev,
    sequence_update 800 285 false 0 sequencePads sequenceKey
      {[ sequenceKey := freshInteraction ]}
    = (StrictSequencePuzzle sv' index' sequencePads sequenceKey, store', ev) /\
    sequenceInv sv' index' sequencePads (padInteraction store' sequenceKey).
Proof.
  apply (sequence_update_keeps_invariant 800 285 false 0 sequencePads sequenceKey
           {[ sequenceKey := freshInteraction ]}).
  repeat split; try discriminate; simpl; lia.
Defined.

(** ** Loading and the layout *)

Lemma layout_insert (rs : list Region) (i : nat) (r r' : Region) :
  rs !! i = Some r -> layout r' = layout r ->
  map layout (<[i := r']> rs) = map layout rs.
Proof.
  intros H E. change (map ?f ?l) with (f <$> l).
  rewrite list_fmap_insert, E. apply list_insert_id.
  rewrite list_lookup_fmap, H. reflexivity.
Qed.

Lemma restoreFlags_layout (flags : list JsVal) (ss : list Seed) :
  map (fun sd => mkSeed (seed_pos sd) false 0) (restoreFlags flags ss)
  = map (fun sd => mkSeed (seed_pos sd) false 0) ss.
Proof.
  revert ss. induction flags as [|c flags IH]; intros [|s ss]; simpl; try reflexivity.
  now rewrite IH.
Qed.

Lemma restoreSeedRows_layout (loaded : list JsVal) (ridx : nat) (rs rs' : list Region) :
  restoreSeedRows loaded ridx rs = Restored rs' \/
  restoreSeedRows loaded ridx rs = Aborted rs' ->
  map layout rs' = map layout rs.
Proof.
  revert ridx rs. induction loaded as [|v loaded IH]; intros ridx rs; simpl.
  - intros [[= <-]|[=]]. reflexivity.
  - destruct v; try solve [intros [[=]|[= <-]]; reflexivity].
    intros H. apply IH in H. rewrite H.
    destruct (rs !! ridx) as [r|] eqn:E; [|reflexivity].
    apply (layout_insert rs ridx r); [assumption|].
    unfold layout. simpl. now rewrite restoreFlags_layout.
Qed.

Lemma restoreCrateRow_sizes (arr : list JsVal) (cs cs' : list Rect) :
  restoreCrateRow arr cs = Restored cs' \/ restoreCrateRow arr cs = Aborted cs' ->
  map (fun c => mkRect 0 0 (rw c) (rh c)) cs' = map (fun c => mkRect 0 0 (rw c) (rh c)) cs.
Proof.
  revert cs cs'. induction arr as [|pos arr IH]; intros cs cs'; simpl.
  - intros [[= <-]|[=]]. reflexivity.
  - destruct cs as [|c cs]; [intros [[= <-]|[=]]; reflexivity|].
    destruct (getProp pos "x") as [vx| |]; try solve [intros [[=]|[= <-]]; reflexivity].
    destruct (getProp pos "y") as [vy| |]; try solve [intros [[=]|[= <-]]; reflexivity].
    destruct (asNum vx) as [x| |]; try solve [intros [[=]|[=]]].
    destruct (asNum vy) as [y| |]; try solve [intros [[=]|[=]]].
    destruct (restoreCrateRow arr cs) as [l|l|] eqn:E.
    + intros [[= <-]|[=]]. simpl. f_equal. apply IH. now left.
    + intros [[=]|[= <-]]. simpl. f_equal. apply IH. now right.
    + intros [[=]|[=]].
Qed.

Lemma restoreCrateRows_layout (loaded : list JsVal) (ridx : nat) (rs rs' : list Region) :
  restoreCrateRows loaded ridx rs = Restored rs' \/
  restoreCrateRows loaded ridx rs = Aborted rs' ->
  map layout rs' = map layout rs.
Proof.
  revert ridx rs. induction loaded as [|v loaded IH]; intros ridx rs; simpl.
  - intros [[= <-]|[=]]. reflexivity.
  - destruct v; try solve [intros [[=]|[= <-]]; reflexivity].
    destruct (rs !! ridx) as [r|] eqn:E; [|apply IH].
    destruct (restoreCrateRow l (crates r)) as [cs|cs|] eqn:Ec.
    + intros H. apply IH in H. rewrite H.
      apply (layout_insert rs ridx r); [assumption|].
      unfold layout. simpl. f_equal. apply (restoreCrateRow_sizes l). now left.
    + intros [[=]|[= <-]].
      apply (layout_insert rs ridx r); [assumption|].
      unfold layout. simpl. f_equal. apply (restoreCrateRow_sizes l). now right.
    + intros [[=]|[=]].
Qed.

Lemma restoreActive_layout (activeStates : list JsVal) (td : list Teleporter) :
  map (fun t => mkTeleporter (tele_pos t) false) (restoreActive activeStates td)
  = map (fun t => mkTeleporter (tele_pos t) false) td.
Proof.
  revert td. induction activeStates as [|a l IH]; intros [|t td]; simpl; try reflexivity.
  now rewrite IH.
Qed.

Lemma setState_layout (state : JsVal) (store store' : gmap string Interaction)
    (p p' : Puzzle) :
  setState state store p = Ok (p', store') -> puzzleLayout p' = puzzleLayout p.
Proof.
  destruct p as [sv pd | sv i pads key | sv | sv td]; simpl.
  - destruct (getProp state "solved"); cbn [bind]; try discriminate. now intros [= <- _].
  - destruct (getProp state "solved"); cbn [bind]; try discriminate.
    destruct (getProp state "index"); cbn [bind]; try discriminate.
    destruct (intOrDefault _ 0); cbn [bind]; try discriminate.
    destruct (getProp state "enteredCorrectPad"); cbn [bind]; try discriminate.
    destruct (getProp state "lastHitIndex"); cbn [bind]; try discriminate.
    destruct (intOrDefault _ (-1)); cbn [bind]; try discriminate.
    now intros [= <- _].
  - destruct (getProp state "solved"); cbn [bind]; try discriminate. now intros [= <- _].
  - destruct (getProp state "solved"); cbn [bind]; try discriminate.
    destruct (asBool _); cbn [bind]; try discriminate.
    destruct (getProp state "activeStates") as [acts| |]; cbn [bind]; try discriminate.
    destruct acts; intros [= <- _]; simpl; try reflexivity.
    now rewrite restoreActive_layout.
Qed.

Lemma restorePuzzles_layout (loaded : list JsVal) (ridx : nat) (rs rs' : list Region)
    (store store' : gmap string Interaction) :
  restorePuzzles loaded ridx rs store = Restored (rs', store') \/
  restorePuzzles loaded ridx rs store = Aborted (rs', store') ->
  map layout rs' = map layout rs.
Proof.
  revert ridx rs store. induction loaded as [|pv loaded IH]; intros ridx rs store; simpl.
  - intros [[= <- _]|[=]]. reflexivity.
  - destruct (rs !! ridx) as [r|] eqn:E; [|apply IH].
    destruct (puzzle r) as [p|] eqn:Ep; [|apply IH].
    destruct (setState pv store p) as [[p1 store1]| |] eqn:Es.
    + intros H. apply IH in H. rewrite H.
      apply (layout_insert rs ridx r); [assumption|].
      unfold layout. simpl. rewrite Ep. simpl.
      now rewrite (setState_layout _ _ _ _ _ Es).
    + intros [[=]|[= <- _]]. reflexivity.
    + intros [[=]|[=]].
Qed.

Lemma restoreComponents_layout (st : Snapshot) (g g' : Game) (loaded : bool) :
  restoreComponents st g = Returned loaded g' ->
  map layout (regions g') = map layout (regions g) /\
  currentRegion g' = currentRegion g /\ player g' = player g /\
  gameTime g' = gameTime g /\ paused g' = paused g /\ events g' = events g.
Proof.
  unfold restoreComponents.
  destruct (st_seeds st) as [| |[| | | | |l1|]]; try solve [intros [= _ <-]; auto 10].
  destruct (restoreSeedRows l1 0 (regions g)) as [rs1|rs1|] eqn:E1; [| |discriminate].
  2:{ intros [= _ <-]. simpl. split; [|auto 10]. apply (restoreSeedRows_layout l1 0). now right. }
  assert (H1 : map layout rs1 = map layout (regions g))
    by (apply (restoreSeedRows_layout l1 0); now left).
  destruct (st_crates st) as [| |[| | | | |l2|]]; try solve [intros [= _ <-]; auto 10].
  destruct (restoreCrateRows l2 0 rs1) as [rs2|rs2|] eqn:E2; [| |discriminate].
  2:{ intros [= _ <-]. simpl. split; [|auto 10]. rewrite <- H1.
      apply (restoreCrateRows_layout l2 0). now right. }
  assert (H2 : map layout rs2 = map layout (regions g)).
  { rewrite <- H1. apply (restoreCrateRows_layout l2 0). now left. }
  destruct (st_puzzles st) as [| |[| | | | |l3|]]; try solve [intros [= _ <-]; auto 10].
  destruct (restorePuzzles l3 0 rs2 (puzzlePadInteraction g)) as [[rs3 s3]|[rs3 s3]|] eqn:E3;
    [| |discriminate].
  - intros [= _ <-]. simpl. split; [|auto 10]. rewrite <- H2.
    eapply (restorePuzzles_layout l3 0 rs2 rs3). left. exact E3.
  - intros [= _ <-]. simpl. split; [|auto 10]. rewrite <- H2.
    eapply (restorePuzzles_layout l3 0 rs2 rs3). right. exact E3.
Qed.

Lemma loadGame_layout (resp : Response) (g g' : Game) (loaded : bool) :
  loadGame resp g = Returned loaded g' ->
  map layout (regions g') = map layout (regions g) /\ paused g' = paused g.
Proof.
  destruct resp as [| |st]; simpl.
  - intros [= _ <-]. auto.
  - intros [= _ <-]. auto.
  - intros H. apply restoreComponents_layout in H as (H1 & _ & _ & _ & H2 & _). auto.
Qed.



(** ** A whole session *)



Lemma layout_syncGate (i : nat) (r : Region) : layout (syncGate i r) = layout r.
Proof.
  unfold syncGate. destruct (i <=? 3)%nat; [|reflexivity].
  destruct (gate r) eqn:E; [|reflexivity].
  unfold layout. simpl. now rewrite E.
Qed.

Lemma imap_syncGate_layout (rs : list Region) :
  map layout (imap syncGate rs) = map layout rs.
Proof.
  change (map ?f ?l) with (f <$> l). apply list_eq. intros i.
  rewrite !list_lookup_fmap, list_lookup_imap.
  destruct (rs !! i); simpl; [|reflexivity]. now rewrite layout_syncGate.
Qed.

Lemma generated_shape (rs : list Region) :
  map layout rs = generatedLayout ->
  length rs = 5%nat /\
  Forall (fun r => cols r = COLS /\ rows r = ROWS) rs /\
  (forall r, rs !! 4%nat = Some r -> gate r = None).
Proof.
  intros H.
  assert (Hl : forall i r, rs !! i = Some r -> generatedLayout !! i = Some (layout r)).
  { intros i r Hr. rewrite <- H. change (map ?f ?l) with (f <$> l).
    now rewrite list_lookup_fmap, Hr. }
  split; [|split].
  - apply (f_equal length) in H. rewrite length_map in H. exact H.
  - apply Forall_lookup. intros i r Hr. apply Hl in Hr.
    assert (Hgen : Forall (fun l => cols l = COLS /\ rows l = ROWS) generatedLayout)
      by (repeat constructor).
    exact (Forall_lookup_1 _ _ _ _ Hgen Hr).
  - intros r Hr. apply Hl in Hr. apply (f_equal (fun o => o ≫= gate)) in Hr.
    simpl in Hr. destruct (gate r); [discriminate | reflexivity].
Qed.

Lemma imap_syncGate_synced (rs : list Region) :
  length rs = 5%nat -> (forall r, rs !! 4%nat = Some r -> gate r = None) ->
  Forall gateSynced (imap syncGate rs).
Proof.
  intros Hlen H4. apply Forall_lookup. intros i x Hx.
  rewrite list_lookup_imap in Hx.
  destruct (rs !! i) as [r|] eqn:Er; simpl in Hx; [|discriminate].
  injection Hx as <-. unfold syncGate.
  destruct (Nat.leb_spec i 3).
  - destruct (gate r) eqn:Eg; unfold gateSynced; simpl; [reflexivity|].
    now rewrite Eg.
  - apply lookup_lt_Some in Er as Hlt.
    assert (i = 4%nat) as -> by lia.
    unfold gateSynced. now rewrite (H4 r Er).
Qed.

Lemma initGame_shape (newGame : bool) (resp : Response) (g0 : Game) :
  initGame newGame resp pageLoad = Ok g0 ->
  paused g0 = false /\ map layout (regions g0) = generatedLayout /\
  Forall gateSynced (regions g0) /\ length (regions g0) = 5%nat /\
  Forall (fun r => cols r = COLS /\ rows r = ROWS) (regions g0).
Proof.
  unfold initGame. intros H.
  assert (Hreg : exists rs, map layout rs = generatedLayout /\
                            regions g0 = imap syncGate rs /\ paused g0 = false).
  { destruct newGame; cbn [bind] in H.
    - exists (regions (generateContent pageLoad)). injection H as <-.
      split; [reflexivity|]. split; reflexivity.
    - destruct (loadGame resp (generateContent pageLoad)) as [loaded g2|] eqn:EL;
        cbn [bind] in H; [|discriminate].
      apply loadGame_layout in EL as [EL _].
      exists (regions g2). split; [exact EL|].
      injection H as <-. destruct loaded; split; reflexivity. }
  destruct Hreg as (rs & Hl & -> & Hp).
  destruct (generated_shape rs Hl) as (Hlen & Hdims & H4).
  split; [assumption|]. split; [now rewrite imap_syncGate_layout|].
  split; [now apply imap_syncGate_synced|].
  assert (Hl' : map layout (imap syncGate rs) = generatedLayout)
    by now rewrite imap_syncGate_layout.
  destruct (generated_shape _ Hl') as (? & ? & _). auto.
Qed.



(** X22.  [loadGame] takes the region of the row as it is.  When the row
    names a region that is not one of the five and the rest of it loads,
    [initGame] starts the loop all the same, and the first frame throws,
    whatever the keys: [regions[currentRegion]] is undefined. *)
Theorem load_unknown_region_throws (st : Snapshot) (g2 : Game) (i : Input) :
  loadGame (Saved st) (generateContent pageLoad) = Returned true g2 ->
  (5 <= st_region st)%nat ->
  exists g0, initGame false (Saved st) pageLoad = Ok g0 /\
    currentRegion g0 = st_region st /\ paused g0 = false /\ tick i g0 = Throw.
Proof.
  intros H Hreg.
  assert (Hc : currentRegion g2 = st_region st).
  { simpl in H. now apply restoreComponents_layout in H as (_ & -> & _). }
  assert (Hinit : exists g0, initGame false (Saved st) pageLoad = Ok g0 /\
                             currentRegion g0 = st_region st).
  { unfold initGame. rewrite H. cbn [bind]. eexists. split; [reflexivity|]. exact Hc. }
  destruct Hinit as (g0 & Hinit & Hc0). exists g0. split; [assumption|].
  split; [assumption|].
  apply initGame_shape in Hinit as Hs. destruct Hs as (Hp & _ & _ & Hlen & _).
  split; [assumption|].
  unfold tick. rewrite Hp. destruct (intent i) as [dx dy].
  unfold movePlayer, currentRegionOf.
  rewrite (lookup_ge_None_2 (regions g0) (currentRegion g0)) by lia.
  reflexivity.
Qed.

Lemma load_unknown_region_throws_witness :
  exists g0,
    initGame false
      (Saved (mkSnapshot 7 96 96 0 (Json (JArr [])) (Json (JArr [])) (Json (JArr []))))
      pageLoad = Ok g0 /\
    currentRegion g0 = 7%nat /\ paused g0 = false /\ tick holdRight g0 = Throw.
Proof.
  eapply (load_unknown_region_throws
            (mkSnapshot 7 96 96 0 (Json (JArr [])) (Json (JArr [])) (Json (JArr [])))).
  - reflexivity.
  - simpl. lia.
Defined.

(** ** Crates stay well placed *)

Lemma cratesPlaced_same (r r' : Region) :
  cols r' = cols r -> rows r' = rows r -> obstacles r' = obstacles r ->
  crates r' = crates r -> cratesPlaced r -> cratesPlaced r'.
Proof.
  unfold cratesPlaced, inside. intros -> -> -> ->. auto.
Qed.

Lemma movePlayer_placed (dx dy : Q) (g g' : Game) :
  movePlayer dx dy g = Ok g' ->
  Forall cratesPlaced (regions g) -> Forall cratesPlaced (regions g').
Proof.
  unfold movePlayer, currentRegionOf.
  destruct (regions g !! currentRegion g) as [r|] eqn:Hr; cbn [bind]; [|discriminate].
  intros H Hall.
  pose proof (Forall_lookup_1 _ _ _ _ Hall Hr) as Hp.
  pose proof (moveHorizontal_placed r (player_x (player g)) (player_y (player g)) dx Hp) as H1.
  destruct (moveHorizontal r _ _ dx) as [c1 x1]. simpl in H1.
  pose proof (moveVertical_placed _ x1 (player_y (player g)) dy H1) as H2.
  destruct (moveVertical _ x1 _ dy) as [c2 y1]. simpl in H2.
  injection H as <-. simpl. unfold setRegion. now apply Forall_insert.
Qed.

Lemma updateSeeds_placed (d : Q) (g g' : Game) :
  updateSeeds d g = Ok g' ->
  Forall cratesPlaced (regions g) -> Forall cratesPlaced (regions g').
Proof.
  unfold updateSeeds, currentRegionOf.
  destruct (regions g !! currentRegion g) as [r|] eqn:Hr; cbn [bind]; [|discriminate].
  destruct (collectSeeds _ d (seeds r)) as [ss n].
  intros [= <-] Hall. simpl. unfold setRegion. apply Forall_insert; [assumption|].
  apply (cratesPlaced_same r); try reflexivity.
  exact (Forall_lookup_1 _ _ _ _ Hall Hr).
Qed.

Lemma updatePuzzle_placed (interactDown : bool) (g g' : Game) :
  updatePuzzle interactDown g = Ok g' ->
  Forall cratesPlaced (regions g) -> Forall cratesPlaced (regions g').
Proof.
  unfold updatePuzzle, currentRegionOf.
  destruct (regions g !! currentRegion g) as [r|] eqn:Hr; cbn [bind]; [|discriminate].
  destruct (puzzle r) as [p|]; [|now intros [= <-]].
  destruct (update _ _ r _ p) as [[p' store] ev].
  intros [= <-] Hall. simpl. unfold setRegion. apply Forall_insert; [assumption|].
  apply (cratesPlaced_same r); try reflexivity.
  exact (Forall_lookup_1 _ _ _ _ Hall Hr).
Qed.

Lemma tick_placed (i : Input) (g g' : Game) :
  tick i g = Ok g' ->
  Forall cratesPlaced (regions g) -> Forall cratesPlaced (regions g').
Proof.
  unfold tick. destruct (paused g); [now intros [= <-]|].
  destruct (intent i) as [dx dy].
  destruct (movePlayer dx dy g) as [g1| |] eqn:H1; cbn [bind]; try discriminate.
  destruct (updateSeeds (dt i) (addTime (dt i) g1)) as [g3| |] eqn:H3;
    cbn [bind]; try discriminate.
  destruct (updatePuzzle (key_interact i) g3) as [g4| |] eqn:H4;
    cbn [bind]; try discriminate.
  destruct (checkRegionSwitch g4) as [g5| |] eqn:H5; cbn [bind]; try discriminate.
  intros [= <-] Hall.
  destruct (checkWinCondition_same g5) as (_ & _ & ->).
  rewrite (checkRegionSwitch_regions _ _ H5).
  apply (updatePuzzle_placed _ _ _ H4), (updateSeeds_placed _ _ _ H3).
  exact (movePlayer_placed _ _ _ _ H1 Hall).
Qed.

(** X23.  If in every region every crate is inside the bounds, clear of
    the obstacles and of the other crates, then so it is after any number of
    frames: no push takes a crate out of its region, into an obstacle or
    into another crate. *)
Theorem play_keeps_crates_placed (inputs : list Input) (g : Game) :
  wf g -> Forall cratesPlaced (regions g) ->
  exists g', run inputs g = Ok g' /\ Forall cratesPlaced (regions g').
Proof.
  intros Hwf Hall. destruct (run_wf inputs g Hwf) as (g' & H & _).
  exists g'. split; [assumption|].
  clear Hwf. revert g Hall H. induction inputs as [|i inputs IH]; intros g Hall; simpl.
  - now intros [= <-].
  - destruct (tick i g) as [g1| |] eqn:H1; cbn [bind]; try discriminate.
    apply IH. exact (tick_placed _ _ _ H1 Hall).
Qed.

Lemma cratesPlaced_intro (r : Region) :
  Forall (fun c => inside c r /\ Forall (fun o => rectOverlap c o = false) (obstacles r))
         (crates r) ->
  (forall i j ci cj, i <> j -> crates r !! i = Some ci -> crates r !! j = Some cj ->
     rectOverlap ci cj = false) ->
  cratesPlaced r.
Proof.
  intros H1 H2. split; [|exact H2].
  intros i c Hc. exact (Forall_lookup_1 _ _ _ _ H1 Hc).
Qed.

Lemma generated_crates_placed : Forall cratesPlaced (regions (generateContent pageLoad)).
Proof.
  repeat apply Forall_cons_2; [| | | | |constructor]; apply cratesPlaced_intro.
  all: try (repeat constructor; vm_compute; repeat split; discriminate).
  all: intros [|[|i]] [|[|j]] ci cj Hne Hi Hj; simpl in Hi, Hj;
    try discriminate; try congruence.
  all: injection Hi as <-; injection Hj as <-; reflexivity.
Qed.

Lemma play_keeps_crates_placed_witness :
  exists g', run [holdRight; holdDown] (generateContent pageLoad) = Ok g' /\
    Forall cratesPlaced (regions g').
Proof.
  apply (play_keeps_crates_placed [holdRight; holdDown] (generateContent pageLoad)).
  - split; [reflexivity|]. split; [simpl; lia|]. repeat constructor.
  - exact generated_crates_placed.
Defined.

(** ** Saving and loading *)

(** X24.  Loading gives back what saving wrote.  For a session whose
    regions have the layout [generateContent] makes, when the seeds, crates
    and puzzles columns of the row hold the values [saveGame] sent,
    [initGame] on a fresh page loads the row: the region, the position and
    the time are the row's, no save is requested, and every region has the
    collected flags, the crate positions and the puzzle snapshot of the
    saved session. *)
Theorem save_then_load_restores (g : Game) (st : Snapshot) :
  map layout (regions g) = generatedLayout ->
  st_seeds st = Json (savedSeeds (regions g)) ->
  st_crates st = Json (savedCrates (regions g)) ->
  st_puzzles st = Json (savedPuzzles (puzzlePadInteraction g) (regions g)) ->
  exists g', initGame false (Saved st) pageLoad = Ok g' /\
    whereAndWhen g' = (st_region st, mkPlayer (st_pos_x st) (st_pos_y st), st_game_time st) /\
    events g' = [] /\
    map (regionState (puzzlePadInteraction g')) (regions g')
    = map (regionState (puzzlePadInteraction g)) (regions g).
Proof.
  intros H Hs Hc Hp.
  destruct g as [cur pl tm fl pa ip rs store ev]. simpl in *.
  destruct rs as [|r0 [|r1 [|r2 [|r3 [|r4 [|]]]]]]; try discriminate H.
  destruct r0 as [? ? ss0 ? cs0 ? p0 ?], r1 as [? ? ss1 ? cs1 ? p1 ?],
    r2 as [? ? ss2 ? cs2 ? p2 ?], r3 as [? ? ss3 ? cs3 ? p3 ?], r4 as [? ? ss4 ? cs4 ? p4 ?].
  apply (f_equal (map (fun r => (seeds r, crates r, puzzle r)))) in H.
  vm_compute in H.
  injection H as Hs0 Hc0 Hp0 Hs1 Hc1 Hp1 Hs2 Hc2 Hp2 Hs3 Hc3 Hp3 Hs4 Hc4 Hp4.
  destruct ss0 as [|s0 [|]]; try discriminate Hs0.
  destruct ss1 as [|s1 [|]]; try discriminate Hs1.
  destruct ss2 as [|s2 [|]]; try discriminate Hs2.
  destruct ss3 as [|s3 [|s4 [|]]]; try discriminate Hs3.
  destruct ss4 as [|]; try discriminate Hs4.
  destruct cs0 as [|c0 [|]]; try discriminate Hc0.
  destruct cs1 as [|]; try discriminate Hc1.
  destruct cs2 as [|c1 [|c2 [|]]]; try discriminate Hc2.
  destruct cs3 as [|]; try discriminate Hc3.
  destruct cs4 as [|]; try discriminate Hc4.
  destruct p0 as [[sv0 pd0| | |]|]; try discriminate Hp0.
  destruct p1 as [[|sv1 idx pads key| |]|]; try discriminate Hp1.
  destruct p2 as [[| |sv2|]|]; try discriminate Hp2.
  destruct p3 as [[| | |sv3 [|t0 [|t1 [|]]]]|]; try discriminate Hp3.
  destruct p4 as [|]; try discriminate Hp4.
  clear Hs0 Hs1 Hs2 Hs3 Hs4 Hc0 Hc1 Hc2 Hc3 Hc4 Hp0 Hp1 Hp2 Hp3 Hp4.
  unfold initGame, loadGame, restoreComponents. rewrite Hs, Hc, Hp.
  clear Hs Hc Hp.
  cbn -[asInt]. rewrite !asInt_inject_Z. cbn -[asInt].
  eexists. split; [reflexivity|]. split; [reflexivity|]. split; [reflexivity|].
  unfold regionState. cbn -[padInteraction]. rewrite !padInteraction_insert.
  reflexivity.
Qed.

Lemma save_then_load_restores_witness :
  exists g', initGame false (Saved (savePayload (generateContent pageLoad))) pageLoad = Ok g' /\
    whereAndWhen g' = (0%nat, mkPlayer (TILE * 3) (TILE * 3), 0) /\
    events g' = [] /\
    map (regionState (puzzlePadInteraction g')) (regions g')
    = map (regionState (puzzlePadInteraction (generateContent pageLoad)))
          (regions (generateContent pageLoad)).
Proof.
  apply (save_then_load_restores (generateContent pageLoad)
           (savePayload (generateContent pageLoad))); reflexivity.
Defined.

(** ** Restarting *)



(** ** Walking where there are no crates *)

Lemma canPlayerMoveTo_clear (r : Region) (nx ny : Q) :
  canPlayerMoveTo r nx ny = true ->
  Forall (fun o => rectOverlap (mkRect nx ny player_w player_h) o = false) (obstacles r) /\
  (forall gt, gate r = Some gt -> closed gt = true ->
     rectOverlap (mkRect nx ny player_w player_h) (gate_rect gt) = false).
Proof.
  unfold canPlayerMoveTo. intros H.
  destruct (existsb _ (obstacles r)) eqn:Eo; [discriminate|].
  split; [now apply existsb_false_Forall|].
  intros gt Hg Hc. rewrite Hg, Hc in H. simpl in H.
  destruct (rectOverlap _ (gate_rect gt)); [discriminate | reflexivity].
Qed.

Lemma setCrates_same (r : Region) : setCrates r (crates r) = r.
Proof. now destruct r. Qed.

(** X26.  In a region without crates [movePlayer] never takes the player
    into an obstacle or into the closed gate: if the player's rectangle
    overlaps no obstacle of the current region, and not its gate while that
    is closed, then the move returns, the same holds afterwards, whatever
    the displacement asked for, and the regions are as they were. *)
Theorem movePlayer_clear_without_crates (dx dy : Q) (g : Game) (r : Region) :
  regions g !! currentRegion g = Some r -> crates r = [] ->
  Forall (fun o => rectOverlap (playerRect (player g)) o = false) (obstacles r) ->
  (forall gt, gate r = Some gt -> closed gt = true ->
     rectOverlap (playerRect (player g)) (gate_rect gt) = false) ->
  exists g', movePlayer dx dy g = Ok g' /\ regions g' = regions g /\
    Forall (fun o => rectOverlap (playerRect (player g')) o = false) (obstacles r) /\
    (forall gt, gate r = Some gt -> closed gt = true ->
       rectOverlap (playerRect (player g')) (gate_rect gt) = false).
Proof.
  intros Hr Hc Ho Hg. unfold movePlayer, currentRegionOf. rewrite Hr. cbn [bind].
  assert (H1 : exists x1, moveHorizontal r (player_x (player g)) (player_y (player g)) dx
                          = (crates r, x1) /\
            Forall (fun o => rectOverlap (mkRect x1 (player_y (player g)) player_w player_h) o
                             = false) (obstacles r) /\
            (forall gt, gate r = Some gt -> closed gt = true ->
               rectOverlap (mkRect x1 (player_y (player g)) player_w player_h) (gate_rect gt)
               = false)).
  { unfold moveHorizontal. rewrite Hc. simpl find_from. cbv zeta.
    destruct (neq dx 0); [|eexists; split; [reflexivity|]; split; assumption].
    destruct (canPlayerMoveTo r _ _) eqn:E; eexists; (split; [reflexivity|]).
    - now apply canPlayerMoveTo_clear.
    - split; assumption. }
  destruct H1 as (x1 & -> & Ho1 & Hg1). rewrite setCrates_same.
  assert (H2 : exists y1, moveVertical r x1 (player_y (player g)) dy = (crates r, y1) /\
            Forall (fun o => rectOverlap (mkRect x1 y1 player_w player_h) o = false)
                   (obstacles r) /\
            (forall gt, gate r = Some gt -> closed gt = true ->
               rectOverlap (mkRect x1 y1 player_w player_h) (gate_rect gt) = false)).
  { unfold moveVertical. rewrite Hc. simpl find_from. cbv zeta.
    destruct (neq dy 0); [|eexists; split; [reflexivity|]; split; assumption].
    destruct (canPlayerMoveTo r _ _) eqn:E; eexists; (split; [reflexivity|]).
    - now apply canPlayerMoveTo_clear.
    - split; assumption. }
  destruct H2 as (y1 & -> & Ho2 & Hg2). rewrite setCrates_same.
  eexists. split; [reflexivity|]. simpl. split; [|split; assumption].
  unfold setRegion. now apply list_insert_id.
Qed.

Lemma movePlayer_clear_without_crates_witness :
  exists g',
    movePlayer 3 0 (mkGame 4 (mkPlayer 230 330) 0 0 false false
                      (regions (generateContent pageLoad)) ∅ []) = Ok g' /\
    player_x (player g') = 230 /\
    Forall (fun o => rectOverlap (playerRect (player g')) o = false)
           [block 8 10 (TILE * 2) (TILE * 2)].
Proof.
  destruct (movePlayer_clear_without_crates 3 0
              (mkGame 4 (mkPlayer 230 330) 0 0 false false
                 (regions (generateContent pageLoad)) ∅ [])
              (mkRegion COLS ROWS [] [block 8 10 (TILE * 2) (TILE * 2)] [] [] None None))
    as (g' & H & _ & Ho & _).
  - reflexivity.
  - reflexivity.
  - repeat constructor.
  - discriminate.
  - exists g'. split; [exact H|]. split; [|exact Ho].
    vm_compute in H. injection H as <-. reflexivity.
Defined.
